(** * lmdbsync: transaction admission and error recovery in front of an LMDB
      environment

    A shallow embedding of [exp/lmdbsync/lmdbsync.go].

    The wrapper [Env] talks to two collaborators: its own [sync.RWMutex]
    (field [txnlock]) and the embedded [*lmdb.Env].  Every method is written
    as a program ([Prog]) that issues calls to these collaborators in the
    order the Go code does.  [exec] runs such a program for one goroutine on
    the wrapper's mutable fields and [calls] lists the calls it issued;
    [step] interleaves the programs of several goroutines on the same
    fields. *)

From Stdlib Require Import ZArith List Bool String Lia.
Import ListNotations.
Local Open Scope Z_scope.

(** ** Errors *)

(** Go [error] values that the package tells apart.  [nilErr] is the nil
    error, [RetryTxn] the package's retry sentinel, [MapResized] and
    [MapFull] the two distinguished engine errors, [ErrnoSys n] an engine
    error carrying the system errno [n]. *)
Inductive error : Type :=
| nilErr
| RetryTxn
| MapResized
| MapFull
| ErrnoSys (n : Z)
| ErrOther (msg : string).

(** [err == nil] *)
Definition is_nil (err : error) : bool :=
  match err with nilErr => true | _ => false end.

(** [err == RetryTxn] *)
Definition is_RetryTxn (err : error) : bool :=
  match err with RetryTxn => true | _ => false end.

(** Modelled from the spec: [syscall.EINVAL], the errno the engine's flags
    query fails with on a handle that is not open yet. *)
Definition EINVAL : Z := 22.

(** Modelled from the spec: [lmdb.IsErrnoSys(err, errno)] holds when [err] is
    an engine error carrying the system errno [errno]. *)
Definition IsErrnoSys (err : error) (errno : Z) : bool :=
  match err with ErrnoSys n => Z.eqb n errno | _ => false end.

(** ** Flags *)

(** Modelled from the spec: the bit of the environment flags that disables
    the engine's internal locking ([lmdb.NoLock], MDB_NOLOCK). *)
Definition NoLock : Z := 0x400000.

(** Modelled from the spec: the bit of the transaction flags that marks a
    read-only transaction ([lmdb.Readonly], MDB_RDONLY). *)
Definition Readonly : Z := 0x20000.

(** [flags&bit != 0] *)
Definition has_flag (flags bit : Z) : bool :=
  negb (Z.eqb (Z.land flags bit) 0).

(** ** Context bags *)

(** A [*Env]: the address of a wrapper, or nil. *)
Definition EnvPtr : Type := option nat.

(** Go [interface{}] values as bags store and compare them: a dynamic type
    together with a value of that type.  [VEnvBagKey] is the package-private
    key type [envBagKey]. *)
Inductive value : Type :=
| VNil
| VEnvBagKey (n : Z)
| VInt (n : Z)
| VString (s : string)
| VEnv (p : EnvPtr).

Definition value_eqb (x y : value) : bool :=
  match x, y with
  | VNil, VNil => true
  | VEnvBagKey n, VEnvBagKey m => Z.eqb n m
  | VInt n, VInt m => Z.eqb n m
  | VString s, VString t => String.eqb s t
  | VEnv None, VEnv None => true
  | VEnv (Some a), VEnv (Some b) => Nat.eqb a b
  | _, _ => false
  end.

(** Modelled from the spec: the context bag ([Bag], [Background], [BagWith]
    and the method [Value]), a persistent association built by linking one
    key/value pair in front of a parent bag. *)
Inductive Bag : Type :=
| Background
| BagWith (b : Bag) (key val : value).

(** Modelled from the spec: [b.Value(key)]; a key absent from a derived bag
    falls through to the parent, and the background bag binds nothing. *)
Fixpoint Value (b : Bag) (key : value) : value :=
  match b with
  | Background => VNil
  | BagWith parent k v => if value_eqb key k then v else Value parent key
  end.

(** [key] has a binding somewhere along the chain of [b]. *)
Fixpoint bound (b : Bag) (key : value) : bool :=
  match b with
  | Background => false
  | BagWith parent k _ => value_eqb key k || bound parent key
  end.

Definition envBagKey (n : Z) : value := VEnvBagKey n.

Definition BagEnv (b : Bag) : EnvPtr :=
  match Value b (envBagKey 0) with
  | VEnv env => env
  | _ => None
  end.

Definition bagWithEnv (b : Bag) (env : EnvPtr) : Bag :=
  BagWith b (envBagKey 0) (VEnv env).

(** ** The admission lock *)

(** A [sync.RWMutex]: whether a writer holds it and how many readers do.
    A reader is admitted whenever no writer holds the mutex; that Go also
    holds new readers back while a writer is waiting only removes
    interleavings. *)
Record RWMutex : Type := mkRWMutex { writer : bool; readers : nat }.

Definition unlocked : RWMutex := mkRWMutex false 0.

Inductive mode : Type := Shared | Exclusive.

(** The mutex after a successful acquisition; [None] when the caller has to
    wait. *)
Definition acquire (m : mode) (l : RWMutex) : option RWMutex :=
  match m with
  | Exclusive =>
      if writer l then None
      else match readers l with
           | O => Some (mkRWMutex true 0)
           | S _ => None
           end
  | Shared =>
      if writer l then None else Some (mkRWMutex false (S (readers l)))
  end.

(** The mutex after a release; [None] is the runtime's fatal error for
    unlocking a mutex that is not locked in that mode. *)
Definition release (m : mode) (l : RWMutex) : option RWMutex :=
  match m with
  | Exclusive =>
      if writer l then Some (mkRWMutex false (readers l)) else None
  | Shared =>
      match readers l with
      | O => None
      | S n => Some (mkRWMutex (writer l) n)
      end
  end.

(** The mutex is held in mode [m]. *)
Definition held (m : mode) (l : RWMutex) : Prop :=
  match m with
  | Exclusive => writer l = true /\ readers l = O
  | Shared => writer l = false /\ (0 < readers l)%nat
  end.

(** ** The storage engine *)

(** The surface of [*lmdb.Env] that the wrapper uses.  [W] is the state of
    everything behind that handle (the environment and whatever the
    transaction bodies run by it can reach), [TxnOp] the type of transaction
    bodies ([lmdb.TxnOp]).  A Go result [(x, err)] is a pair; [lmdb.NewEnv]
    yields either a handle or an error. *)
Class Engine (W TxnOp : Type) : Type := {
  lmdb_NewEnv : W + error;
  lmdb_Flags : W -> Z * error;
  lmdb_Open : string -> Z -> Z -> W -> error * W;
  lmdb_SetFlags : Z -> W -> error * W;
  lmdb_UnsetFlags : Z -> W -> error * W;
  lmdb_SetMapSize : Z -> W -> error * W;
  lmdb_RunTxn : Z -> TxnOp -> W -> error * W;
  lmdb_View : TxnOp -> W -> error * W;
  lmdb_Update : TxnOp -> W -> error * W;
  lmdb_UpdateLocked : TxnOp -> W -> error * W
}.

(** ** Programs over the wrapper's collaborators *)

Section Programs.
Context {W TxnOp : Type}.

(** The calls a method of the wrapper can issue: on its [txnlock], on the
    clock, on its [noLock] field, and on the embedded engine handle. *)
Inductive Call : Type :=
| txnlock_Lock
| txnlock_Unlock
| txnlock_RLock
| txnlock_RUnlock
| time_Sleep (d : Z)
| noLock_get
| noLock_set (v : bool)
| Env_Open (path : string) (flags mode : Z)
| Env_SetFlags (flags : Z)
| Env_UnsetFlags (flags : Z)
| Env_SetMapSize (size : Z)
| Env_RunTxn (flags : Z) (op : TxnOp)
| Env_View (op : TxnOp)
| Env_Update (op : TxnOp)
| Env_UpdateLocked (op : TxnOp).

(** What a call hands back. *)
Definition Resp (c : Call) : Type :=
  match c with
  | txnlock_Lock | txnlock_Unlock | txnlock_RLock | txnlock_RUnlock => unit
  | time_Sleep _ => unit
  | noLock_get => bool
  | noLock_set _ => unit
  | _ => error
  end.

(** A program issues calls one after the other and finally returns; [Spent]
    is a loop cut off by its iteration budget. *)
Inductive Prog (A : Type) : Type :=
| Ret (a : A)
| Do (c : Call) (k : Resp c -> Prog A)
| Spent.
Arguments Ret {A} a.
Arguments Do {A} c k.
Arguments Spent {A}.

Fixpoint bind {A B : Type} (p : Prog A) (f : A -> Prog B) : Prog B :=
  match p with
  | Ret a => f a
  | Do c k => Do c (fun x => bind (k x) f)
  | Spent => Spent
  end.

Definition call (c : Call) : Prog (Resp c) := Do c Ret.

(** ** Handlers and the wrapper *)

(** The interface [Handler]: one method [HandleTxnErr(b, err)]. *)
Record Handler : Type := mkHandler {
  HandleTxnErr : Bag -> error -> Prog (Bag * error)
}.

Definition HandlerChain : Type := list Handler.

(** A [*Env] as the methods see it: the wrapper's address [self] and the two
    fields no method assigns after construction.  The fields the methods do
    assign, and the state behind the embedded engine handle, are in
    [EnvState]. *)
Record Env : Type := mkEnv {
  self : nat;
  Handlers : HandlerChain;
  bag : Bag
}.

Record EnvState : Type := mkEnvState {
  lmdbEnv : W;
  noLock : bool;
  txnlock : RWMutex
}.

Definition with_lmdbEnv (s : EnvState) (w : W) : EnvState :=
  mkEnvState w (noLock s) (txnlock s).
Definition with_noLock (s : EnvState) (v : bool) : EnvState :=
  mkEnvState (lmdbEnv s) v (txnlock s).
Definition with_txnlock (s : EnvState) (l : RWMutex) : EnvState :=
  mkEnvState (lmdbEnv s) (noLock s) l.

End Programs.

Arguments Call : clear implicits.
Arguments Prog : clear implicits.
Arguments Handler : clear implicits.
Arguments HandlerChain : clear implicits.
Arguments Env : clear implicits.
Arguments EnvState : clear implicits.
Arguments Ret {TxnOp A} a.
Arguments Do {TxnOp A} c k.
Arguments Spent {TxnOp A}.

Declare Scope prog_scope.
Delimit Scope prog_scope with prog.
Notation "x <- p ;; q" := (bind p (fun x => q))
  (at level 100, p at next level, right associativity) : prog_scope.
Notation "p ;; q" := (bind p (fun _ => q))
  (at level 100, right associativity) : prog_scope.
Local Open Scope prog_scope.

(** ** Running a program in one goroutine *)

Section Semantics.
Context {W TxnOp : Type} {E : Engine W TxnOp}.

(** How one call goes: it comes back with an answer and a new state, or the
    goroutine parks on the mutex, or the runtime stops the process. *)
Inductive reaction (X : Type) : Type :=
| Proceeds (x : X) (s : EnvState W)
| Parks
| Throws.
Arguments Proceeds {X} x s.
Arguments Parks {X}.
Arguments Throws {X}.

Definition lock_call (m : mode) (s : EnvState W) : reaction unit :=
  match acquire m (txnlock s) with
  | Some l => Proceeds tt (with_txnlock s l)
  | None => Parks
  end.

Definition unlock_call (m : mode) (s : EnvState W) : reaction unit :=
  match release m (txnlock s) with
  | Some l => Proceeds tt (with_txnlock s l)
  | None => Throws
  end.

Definition engine_call (f : W -> error * W) (s : EnvState W) : reaction error :=
  Proceeds (fst (f (lmdbEnv s))) (with_lmdbEnv s (snd (f (lmdbEnv s)))).

Definition perform (c : Call TxnOp) (s : EnvState W) : reaction (Resp c) :=
  match c return reaction (Resp c) with
  | txnlock_Lock => lock_call Exclusive s
  | txnlock_Unlock => unlock_call Exclusive s
  | txnlock_RLock => lock_call Shared s
  | txnlock_RUnlock => unlock_call Shared s
  | time_Sleep _ => Proceeds tt s
  | noLock_get => Proceeds (noLock s) s
  | noLock_set v => Proceeds tt (with_noLock s v)
  | Env_Open path flags fmode => engine_call (lmdb_Open path flags fmode) s
  | Env_SetFlags flags => engine_call (lmdb_SetFlags flags) s
  | Env_UnsetFlags flags => engine_call (lmdb_UnsetFlags flags) s
  | Env_SetMapSize size => engine_call (lmdb_SetMapSize size) s
  | Env_RunTxn flags op => engine_call (lmdb_RunTxn flags op) s
  | Env_View op => engine_call (lmdb_View op) s
  | Env_Update op => engine_call (lmdb_Update op) s
  | Env_UpdateLocked op => engine_call (lmdb_UpdateLocked op) s
  end.

(** How a program ends when one goroutine runs it alone: it returns, it
    stays parked in call [c] (nobody else is there to release the mutex), the
    runtime aborts in call [c], or the iteration budget ran out. *)
Inductive outcome (A : Type) : Type :=
| Returns (a : A) (s : EnvState W)
| Blocks (c : Call TxnOp) (s : EnvState W)
| Fatal (c : Call TxnOp) (s : EnvState W)
| Timeout.
Arguments Returns {A} a s.
Arguments Blocks {A} c s.
Arguments Fatal {A} c s.
Arguments Timeout {A}.

Fixpoint exec {A : Type} (p : Prog TxnOp A) (s : EnvState W) : outcome A :=
  match p with
  | Ret a => Returns a s
  | Spent => Timeout
  | Do c k =>
      match perform c s with
      | Proceeds x s' => exec (k x) s'
      | Parks => Blocks c s
      | Throws => Fatal c s
      end
  end.

(** The calls the goroutine issues, in order; a call it parks or aborts in
    is the last one. *)
Fixpoint calls {A : Type} (p : Prog TxnOp A) (s : EnvState W) : list (Call TxnOp) :=
  match p with
  | Ret _ => []
  | Spent => []
  | Do c k =>
      match perform c s with
      | Proceeds x s' => c :: calls (k x) s'
      | Parks => [c]
      | Throws => [c]
      end
  end.

End Semantics.

Arguments Proceeds {W X} x s.
Arguments Parks {W X}.
Arguments Throws {W X}.
Arguments Returns {W TxnOp A} a s.
Arguments Blocks {W TxnOp A} c s.
Arguments Fatal {W TxnOp A} c s.
Arguments Timeout {W TxnOp A}.

(** ** The wrapper's methods *)

Section Wrapper.
Context {W TxnOp : Type} {E : Engine W TxnOp}.

#[local] Abbreviation Prog := (Prog TxnOp).
#[local] Abbreviation Handler := (Handler TxnOp).
#[local] Abbreviation HandlerChain := (HandlerChain TxnOp).
#[local] Abbreviation Env := (Env TxnOp).
#[local] Abbreviation EnvState := (EnvState W).

(** Modelled from the spec: [HandlerChain.HandleTxnErr], which hands the bag
    and the error to the handlers of the chain one after the other. *)
Fixpoint chain_HandleTxnErr (c : HandlerChain) (b : Bag) (err : error)
  : Prog (Bag * error) :=
  match c with
  | [] => Ret (b, err)
  | h :: rest =>
      x <- HandleTxnErr h b err ;;
      chain_HandleTxnErr rest (fst x) (snd x)
  end.

(** A chain used where a [Handler] is expected. *)
Definition chainHandler (c : HandlerChain) : Handler :=
  mkHandler (chain_HandleTxnErr c).

(** Modelled from the spec: [HandlerChain.Append], which returns a new chain
    and leaves the receiver as it is. *)
Definition Append (c : HandlerChain) (h : Handler) : HandlerChain :=
  c ++ [h].

(** What [NewEnv] comes to: a wrapper with its initial fields, an error, or
    the panic of calling [Flags] through a nil handle. *)
Inductive construction : Type :=
| Built (r : Env) (s : EnvState)
| Failed (err : error)
| NilDeref.

(** [a] is the address the allocation of the new [Env] yields; [env = None]
    is a nil [*lmdb.Env]. *)
Definition NewEnv (a : nat) (env : option W) (h : list Handler) : construction :=
  match (match env with
         | Some e => inl e
         | None => lmdb_NewEnv
         end) with
  | inr err => if is_nil err then NilDeref else Failed err
  | inl e =>
      let flags := fst (lmdb_Flags e) in
      let err := snd (lmdb_Flags e) in
      let _env :=
        let noLock := has_flag flags NoLock in
        let chain := [] ++ h in
        Built (mkEnv a chain Background) (mkEnvState e noLock unlocked) in
      if IsErrnoSys err EINVAL then _env
      else if negb (is_nil err) then Failed err
      else _env
  end.

(** The methods below run on the fields of their receiver; the receiver is
    an argument only where its [Handlers], [bag] or address is read. *)

Definition Open (path : string) (flags fmode : Z) : Prog error :=
  err <- call (Env_Open path flags fmode) ;;
  if negb (is_nil err) then Ret err
  else
    (if has_flag flags NoLock then call (noLock_set true) else Ret tt) ;;
    Ret nilErr.

Definition SetFlags (flags : Z) : Prog error :=
  err <- call (Env_SetFlags flags) ;;
  if negb (is_nil err) then Ret err
  else
    (if has_flag flags NoLock then call (noLock_set true) else Ret tt) ;;
    Ret nilErr.

Definition UnsetFlags (flags : Z) : Prog error :=
  err <- call (Env_UnsetFlags flags) ;;
  if negb (is_nil err) then Ret err
  else
    (if has_flag flags NoLock then call (noLock_set false) else Ret tt) ;;
    Ret nilErr.

Definition setMapSize (size delay : Z) : Prog error :=
  call txnlock_Lock ;;
  (if 0 <? delay then call (time_Sleep delay) else Ret tt) ;;
  err <- call (Env_SetMapSize size) ;;
  call txnlock_Unlock ;;
  Ret err.

Definition SetMapSize (size : Z) : Prog error :=
  call txnlock_Lock ;;
  err <- setMapSize size 0 ;;
  call txnlock_Unlock ;;
  Ret err.

Definition run (readonly : bool) (fn : Prog error) : Prog error :=
  noLock <- call noLock_get ;;
  if noLock && negb readonly then
    call txnlock_Lock ;;
    err <- fn ;;
    call txnlock_Unlock ;;
    Ret err
  else
    call txnlock_RLock ;;
    err <- fn ;;
    call txnlock_RUnlock ;;
    Ret err.

(** The [for] loop of [runHandler], with [fuel] bounding its iterations. *)
Fixpoint runHandler_loop (fuel : nat) (readonly : bool) (fn : Prog error)
    (h : Handler) (b : Bag) : Prog error :=
  match fuel with
  | O => Spent
  | S fuel' =>
      err <- run readonly fn ;;
      x <- HandleTxnErr h b err ;;
      if negb (is_RetryTxn (snd x)) then Ret (snd x)
      else runHandler_loop fuel' readonly fn h (fst x)
  end.

Definition runHandler (fuel : nat) (r : Env) (readonly : bool)
    (fn : Prog error) (h : Handler) : Prog error :=
  let b := bagWithEnv (bag r) (Some (self r)) in
  runHandler_loop fuel readonly fn h b.

Definition RunTxn (fuel : nat) (r : Env) (flags : Z) (op : TxnOp) : Prog error :=
  let readonly := has_flag flags Readonly in
  runHandler fuel r readonly (call (Env_RunTxn flags op)) (chainHandler (Handlers r)).

Definition View (fuel : nat) (r : Env) (op : TxnOp) : Prog error :=
  runHandler fuel r true (call (Env_View op)) (chainHandler (Handlers r)).

Definition Update (fuel : nat) (r : Env) (op : TxnOp) : Prog error :=
  runHandler fuel r false (call (Env_Update op)) (chainHandler (Handlers r)).

Definition UpdateLocked (fuel : nat) (r : Env) (op : TxnOp) : Prog error :=
  runHandler fuel r false (call (Env_UpdateLocked op)) (chainHandler (Handlers r)).

(** Modelled from the spec: the runner type [handlerRunner] behind
    [TxnRunner], a wrapper reference paired with a chain, whose four
    transaction operations run on that wrapper with that chain. *)
Record handlerRunner : Type := mkHandlerRunner {
  env : Env;
  h : HandlerChain
}.

Definition WithHandler (r : Env) (h : Handler) : handlerRunner :=
  mkHandlerRunner r (Append (Handlers r) h).

Definition runner_RunTxn (fuel : nat) (tr : handlerRunner) (flags : Z)
    (op : TxnOp) : Prog error :=
  let readonly := has_flag flags Readonly in
  runHandler fuel (env tr) readonly (call (Env_RunTxn flags op)) (chainHandler (h tr)).

Definition runner_View (fuel : nat) (tr : handlerRunner) (op : TxnOp) : Prog error :=
  runHandler fuel (env tr) true (call (Env_View op)) (chainHandler (h tr)).

Definition runner_Update (fuel : nat) (tr : handlerRunner) (op : TxnOp) : Prog error :=
  runHandler fuel (env tr) false (call (Env_Update op)) (chainHandler (h tr)).

Definition runner_UpdateLocked (fuel : nat) (tr : handlerRunner) (op : TxnOp)
  : Prog error :=
  runHandler fuel (env tr) false (call (Env_UpdateLocked op)) (chainHandler (h tr)).

(** Modelled from the spec: the baseline handler, which on the resize-race
    error adopts the new size through the delayed-resize path and asks for a
    retry, and passes every other result on. *)
Definition MapResizedHandler (size delay : Z) : Handler :=
  mkHandler (fun b err =>
    match err with
    | MapResized => setMapSize size delay ;; Ret (b, RetryTxn)
    | _ => Ret (b, err)
    end).

End Wrapper.

Arguments handlerRunner : clear implicits.
Arguments construction : clear implicits.

(** ** The admission rule and the retry protocol, as specified *)

(** The mode an attempt has to take the admission lock in: with the
    lock-mode flag unset always shared; with the flag set, exclusive for a
    write attempt and shared for a read attempt. *)
Definition admission_mode (noLock readonly : bool) : mode :=
  if noLock then (if readonly then Shared else Exclusive) else Shared.

Definition lock_of {TxnOp : Type} (m : mode) : Call TxnOp :=
  match m with Exclusive => txnlock_Lock | Shared => txnlock_RLock end.

Definition unlock_of {TxnOp : Type} (m : mode) : Call TxnOp :=
  match m with Exclusive => txnlock_Unlock | Shared => txnlock_RUnlock end.

(** Take the admission lock in mode [m], run [fn], give the lock back. *)
Definition with_lock {TxnOp : Type} (m : mode) (fn : Prog TxnOp error)
  : Prog TxnOp error :=
  Do (lock_of m) (fun _ =>
    err <- fn ;; Do (unlock_of m) (fun _ => Ret err)).

(** The four transaction operations. *)
Inductive txn_method : Type :=
| mRunTxn (flags : Z)
| mView
| mUpdate
| mUpdateLocked.

(** The read-only-ness each operation declares: [RunTxn] derives it from
    its flags, [View] is always read-only, [Update] and [UpdateLocked] are
    always mutating. *)
Definition declared_readonly (k : txn_method) : bool :=
  match k with
  | mRunTxn flags => has_flag flags Readonly
  | mView => true
  | mUpdate | mUpdateLocked => false
  end.

(** The engine call that executes the body [op] for each operation. *)
Definition engine_body {TxnOp : Type} (k : txn_method) (op : TxnOp) : Call TxnOp :=
  match k with
  | mRunTxn flags => Env_RunTxn flags op
  | mView => Env_View op
  | mUpdate => Env_Update op
  | mUpdateLocked => Env_UpdateLocked op
  end.

(** The closure [fn] each operation hands to [runHandler]: that engine
    call and nothing else. *)
Definition closure {TxnOp : Type} (k : txn_method) (op : TxnOp)
  : Prog TxnOp error :=
  match k with
  | mRunTxn flags => call (Env_RunTxn flags op)
  | mView => call (Env_View op)
  | mUpdate => call (Env_Update op)
  | mUpdateLocked => call (Env_UpdateLocked op)
  end.

(** The operation [k] called on the wrapper [r]. *)
Definition invoke {TxnOp : Type} (k : txn_method) (fuel : nat) (r : Env TxnOp)
    (op : TxnOp) : Prog TxnOp error :=
  match k with
  | mRunTxn flags => RunTxn fuel r flags op
  | mView => View fuel r op
  | mUpdate => Update fuel r op
  | mUpdateLocked => UpdateLocked fuel r op
  end.

(** The operation [k] called on the runner [tr]. *)
Definition runner_invoke {TxnOp : Type} (k : txn_method) (fuel : nat)
    (tr : handlerRunner TxnOp) (op : TxnOp) : Prog TxnOp error :=
  match k with
  | mRunTxn flags => runner_RunTxn fuel tr flags op
  | mView => runner_View fuel tr op
  | mUpdate => runner_Update fuel tr op
  | mUpdateLocked => runner_UpdateLocked fuel tr op
  end.

Section Protocol.
Context {W TxnOp : Type} {E : Engine W TxnOp}.

(** One attempt: the locked execution followed by the handler. *)
Definition attempt (readonly : bool) (fn : Prog TxnOp error)
    (h : Handler TxnOp) (b : Bag) : Prog TxnOp (Bag * error) :=
  err <- run readonly fn ;; HandleTxnErr h b err.

(** [settles ro fn h k b s err s']: started with bag [b] in state [s], the
    first [k - 1] attempts each end with the handler answering [RetryTxn],
    and attempt [k] ends in state [s'] with the handler answering [err],
    which is not [RetryTxn].  Every attempt after the first gets the bag the
    handler returned before. *)
Inductive settles (readonly : bool) (fn : Prog TxnOp error) (h : Handler TxnOp)
  : nat -> Bag -> EnvState W -> error -> EnvState W -> Prop :=
| settles_done b s b' err s' :
    exec (attempt readonly fn h b) s = Returns (b', err) s' ->
    err <> RetryTxn ->
    settles readonly fn h 1 b s err s'
| settles_retry k b s b1 s1 err s' :
    exec (attempt readonly fn h b) s = Returns (b1, RetryTxn) s1 ->
    settles readonly fn h k b1 s1 err s' ->
    settles readonly fn h (S k) b s err s'.

End Protocol.

(** ** An engine to run the wrapper on *)

(** A small engine for concrete runs.  It records its flags, whether it is
    open, its map size, how many transaction bodies it has run, and a fault
    that makes the flags query fail when it is not nil; a body is given by
    the error it returns as a function of that count. *)
Module Scripted.

Record world : Type := mkWorld {
  w_flags : Z;
  w_open : bool;
  w_mapsize : Z;
  w_invoked : nat;
  w_fault : error
}.

Definition TxnOp : Type := nat -> error.

Definition run_body (op : TxnOp) (w : world) : error * world :=
  (op (w_invoked w),
   mkWorld (w_flags w) (w_open w) (w_mapsize w) (S (w_invoked w)) (w_fault w)).

Definition fresh : world := mkWorld 0 false 0 0 nilErr.

#[export] Instance engine : Engine world TxnOp := {
  lmdb_NewEnv := inl fresh;
  lmdb_Flags w :=
    if negb (is_nil (w_fault w)) then (0, w_fault w)
    else if w_open w then (w_flags w, nilErr)
    else (0, ErrnoSys EINVAL);
  lmdb_Open path flags _ w :=
    if String.eqb path EmptyString then (ErrnoSys 2, w)
    else (nilErr, mkWorld flags true (w_mapsize w) (w_invoked w) (w_fault w));
  lmdb_SetFlags flags w :=
    if flags <? 0 then (ErrnoSys EINVAL, w)
    else (nilErr, mkWorld (Z.lor (w_flags w) flags) (w_open w)
                          (w_mapsize w) (w_invoked w) (w_fault w));
  lmdb_UnsetFlags flags w :=
    if flags <? 0 then (ErrnoSys EINVAL, w)
    else (nilErr, mkWorld (Z.ldiff (w_flags w) flags) (w_open w)
                          (w_mapsize w) (w_invoked w) (w_fault w));
  lmdb_SetMapSize size w :=
    if size <? 0 then (ErrnoSys EINVAL, w)
    else (nilErr, mkWorld (w_flags w) (w_open w) size (w_invoked w) (w_fault w));
  lmdb_RunTxn _ op w := run_body op w;
  lmdb_View op w := run_body op w;
  lmdb_Update op w := run_body op w;
  lmdb_UpdateLocked op w := run_body op w
}.

(** A wrapper at address 1 with the baseline handler, and its fields when
    the engine is in state [w] and nobody holds the lock. *)
Definition baseline : Env TxnOp :=
  mkEnv 1%nat [MapResizedHandler 0 0] Background.

Definition idle (w : world) (nolock : bool) : EnvState world :=
  mkEnvState w nolock unlocked.

(** A body that reports the resize race until it has been run [n - 1]
    times. *)
Definition resized_until (n : nat) : TxnOp :=
  fun i => if Nat.ltb (S i) n then MapResized else nilErr.

(** A body that fails with [err] every time. *)
Definition failing (err : error) : TxnOp := fun _ => err.

End Scripted.

(** ** Several goroutines on one wrapper *)

Section Goroutines.
Context {W TxnOp : Type} {E : Engine W TxnOp}.

(** The goroutines that are using the wrapper, each with what it still has
    to run. *)
Definition pool : Type := list (Prog TxnOp error).

Fixpoint replace_nth {A : Type} (i : nat) (y : A) (l : list A) : list A :=
  match l, i with
  | [], _ => []
  | _ :: l', O => y :: l'
  | x :: l', S i' => x :: replace_nth i' y l'
  end.

(** A goroutine performs its next call, if it has one that can proceed. *)
Definition advance (p : Prog TxnOp error) (s : EnvState W)
  : option (Prog TxnOp error * EnvState W) :=
  match p with
  | Do c k =>
      match perform c s with
      | Proceeds x s' => Some (k x, s')
      | _ => None
      end
  | _ => None
  end.

(** One step of the whole: some goroutine whose next call can proceed
    performs it.  A goroutine whose next call parks stays where it is until
    the call can proceed. *)
Inductive step : pool * EnvState W -> pool * EnvState W -> Prop :=
| step_goroutine (ps : pool) (s : EnvState W) (i : nat)
    (p p' : Prog TxnOp error) (s' : EnvState W) :
    nth_error ps i = Some p ->
    advance p s = Some (p', s') ->
    step (ps, s) (replace_nth i p' ps, s').

Inductive steps : pool * EnvState W -> pool * EnvState W -> Prop :=
| steps_refl cfg : steps cfg cfg
| steps_step cfg cfg' cfg'' : step cfg cfg' -> steps cfg' cfg'' -> steps cfg cfg''.

(** What a goroutine holds of the admission lock: nothing, or the lock in
    some mode. *)
Definition stance : Type := option mode.

Definition is_lock_call (c : Call TxnOp) : bool :=
  match c with
  | txnlock_Lock | txnlock_Unlock | txnlock_RLock | txnlock_RUnlock => true
  | _ => false
  end.

(** [moves st p st']: a goroutine that holds [st] and runs [p] takes the
    lock only when it holds nothing, gives back only what it holds, and
    holds [st'] when [p] returns.  Asking for the lock in a way that cannot
    be granted while the goroutine holds what it holds (the last two
    rules) is allowed: such a call never proceeds. *)
Inductive moves {A : Type} : stance -> Prog TxnOp A -> stance -> Prop :=
| moves_ret st a : moves st (Ret a) st
| moves_spent st st' : moves st Spent st'
| moves_lock m k st' :
    (forall x, moves (Some m) (k x) st') ->
    moves None (Do (lock_of m) k) st'
| moves_unlock m k st' :
    (forall x, moves None (k x) st') ->
    moves (Some m) (Do (unlock_of m) k) st'
| moves_other st c k st' :
    is_lock_call c = false ->
    (forall x, moves st (k x) st') ->
    moves st (Do c k) st'
| moves_relock m k st' : moves (Some m) (Do txnlock_Lock k) st'
| moves_rlock_in_lock k st' : moves (Some Exclusive) (Do txnlock_RLock k) st'.

(** Whether a goroutine with stance [st] holds the lock in mode [m], as a
    number, and how many goroutines do. *)
Definition weight (m : mode) (st : stance) : nat :=
  match m, st with
  | Exclusive, Some Exclusive => 1
  | Shared, Some Shared => 1
  | _, _ => 0
  end.

Fixpoint holders (m : mode) (sts : list stance) : nat :=
  match sts with
  | [] => 0
  | st :: sts' => weight m st + holders m sts'
  end.

(** The mutex agrees with what the goroutines hold: either one goroutine
    holds it exclusively and nobody else holds anything, or nobody holds it
    exclusively and the reader count is the number of shared holders. *)
Definition agrees (sts : list stance) (l : RWMutex) : Prop :=
  (writer l = true /\ readers l = O /\
   holders Exclusive sts = 1%nat /\ holders Shared sts = O) \/
  (writer l = false /\ readers l = holders Shared sts /\
   holders Exclusive sts = O).

(** Every goroutine of the pool keeps to the lock protocol from the stance
    listed for it, and ends holding nothing. *)
Definition orderly (sts : list stance) (ps : pool) : Prop :=
  Forall2 (fun st p => moves st p None) sts ps.

(** Where [SetMapSize] is after its first [Lock]: about to enter
    [setMapSize]. *)
Definition SetMapSize_locked (size : Z) : Prog TxnOp error :=
  err <- setMapSize size 0 ;;
  call txnlock_Unlock ;;
  Ret err.

(** The next call of [p] is [txnlock.Lock()]. *)
Definition asks_Lock (p : Prog TxnOp error) : bool :=
  match p with
  | Do txnlock_Lock _ => true
  | _ => false
  end.

(** A goroutine at [p] is inside a section locked in mode [m], about to
    perform [c] and then to release the lock. *)
Definition inside (m : mode) (c : Call TxnOp) (p : Prog TxnOp error) : Prop :=
  is_lock_call c = false /\
  exists k : Resp c -> Resp (unlock_of m) -> Prog TxnOp error,
    p = Do c (fun x => Do (unlock_of m) (k x)).

End Goroutines.

(** ** Goroutines that call the wrapper *)

Section Discipline.
Context {W TxnOp : Type} {E : Engine W TxnOp}.

(** What the engine does for the body [op] of operation [k]. *)
Definition engine_run (k : txn_method) (op : TxnOp) : W -> error * W :=
  match k with
  | mRunTxn flags => lmdb_RunTxn flags op
  | mView => lmdb_View op
  | mUpdate => lmdb_Update op
  | mUpdateLocked => lmdb_UpdateLocked op
  end.

(** [keeps st p st']: as [moves], without its last two rules: a goroutine
    that holds [st] and runs [p] asks for the lock only when it holds
    nothing and gives back only what it holds, as [run] and [setMapSize]
    do. *)
Inductive keeps {A : Type} : stance -> Prog TxnOp A -> stance -> Prop :=
| keeps_ret st a : keeps st (Ret a) st
| keeps_spent st' : keeps None Spent st'
| keeps_lock m k st' :
    (forall x, keeps (Some m) (k x) st') ->
    keeps None (Do (lock_of m) k) st'
| keeps_unlock m k st' :
    (forall x, keeps None (k x) st') ->
    keeps (Some m) (Do (unlock_of m) k) st'
| keeps_other st c k st' :
    is_lock_call c = false ->
    (forall x, keeps st (k x) st') ->
    keeps st (Do c k) st'.

(** A handler that, called holding nothing, keeps to the protocol and ends
    holding nothing. *)
Definition orderly_handler (h : Handler TxnOp) : Prop :=
  forall b err, keeps None (HandleTxnErr h b err) None.

(** What a goroutine that uses the wrapper runs: transaction operations on
    wrappers whose handlers are orderly, the delayed resize, the flag
    proxies, one after the other. *)
Inductive wrapper_call : Prog TxnOp error -> Prop :=
| wrapper_invoke k fuel r op :
    Forall orderly_handler (Handlers r) ->
    wrapper_call (invoke k fuel r op)
| wrapper_setMapSize size delay : wrapper_call (setMapSize size delay)
| wrapper_Open path flags fmode : wrapper_call (Open path flags fmode)
| wrapper_SetFlags flags : wrapper_call (SetFlags flags)
| wrapper_UnsetFlags flags : wrapper_call (UnsetFlags flags)
| wrapper_then p f :
    wrapper_call p -> (forall err, wrapper_call (f err)) ->
    wrapper_call (bind p f)
| wrapper_done err : wrapper_call (Ret err).

(** Where a goroutine is inside [setMapSize] once it has the lock: before
    the sleep of a positive delay, or before the engine's resize; [K] is
    what the goroutine goes on with after [setMapSize]. *)
Inductive in_setMapSize (size delay : Z) : Prog TxnOp error -> Prop :=
| before_sleep (K : error -> Prog TxnOp error) :
    0 < delay ->
    in_setMapSize size delay
      (Do (time_Sleep delay) (fun _ =>
         Do (Env_SetMapSize size) (fun err =>
           Do txnlock_Unlock (fun _ => K err))))
| before_resize (K : error -> Prog TxnOp error) :
    in_setMapSize size delay
      (Do (Env_SetMapSize size) (fun err =>
         Do txnlock_Unlock (fun _ => K err))).

(** Nobody holds anything. *)
Definition nobody (n : nat) : list stance := repeat None n.

End Discipline.

(** ** An engine that cannot allocate *)

(** As [Scripted], but [lmdb.NewEnv] fails with errno 12. *)
Module Exhausted.

#[export] Instance engine : Engine Scripted.world Scripted.TxnOp := {
  lmdb_NewEnv := inr (ErrnoSys 12);
  lmdb_Flags := lmdb_Flags (Engine := Scripted.engine);
  lmdb_Open := lmdb_Open (Engine := Scripted.engine);
  lmdb_SetFlags := lmdb_SetFlags (Engine := Scripted.engine);
  lmdb_UnsetFlags := lmdb_UnsetFlags (Engine := Scripted.engine);
  lmdb_SetMapSize := lmdb_SetMapSize (Engine := Scripted.engine);
  lmdb_RunTxn := lmdb_RunTxn (Engine := Scripted.engine);
  lmdb_View := lmdb_View (Engine := Scripted.engine);
  lmdb_Update := lmdb_Update (Engine := Scripted.engine);
  lmdb_UpdateLocked := lmdb_UpdateLocked (Engine := Scripted.engine)
}.

End Exhausted.

(** ** Handler chains in memory *)

(** A [HandlerChain] is a Go slice: a header that points into a backing
    array.  Two headers can point into one array, so whether making a runner
    can disturb the chain of the wrapper, or of another runner, is a matter
    of what [Append] does with the arrays.  Here the arrays are explicit;
    the chains of the sections above are what the headers read as. *)
Module Heap.
Section Slices.
Context {W TxnOp : Type} {E : Engine W TxnOp}.

(** A slice header: the address of the backing array, the length and the
    capacity. *)
Record slice : Type := mkSlice { arr : nat; len : nat; cap : nat }.

(** The backing arrays allocated so far, by address. *)
Definition store : Type := list (list (Handler TxnOp)).

(** The handlers a header reads as. *)
Definition elems (m : store) (c : slice) : HandlerChain TxnOp :=
  firstn (len c) (nth (arr c) m []).

(** The header points to an allocated array. *)
Definition live (m : store) (c : slice) : Prop := (arr c < List.length m)%nat.

(** What one goroutine does with a wrapper and the runners it derives:
    derive a runner, call an operation on the [i]-th runner derived so far,
    call an operation on the wrapper itself. *)
Inductive action : Type :=
| MakeRunner (h : Handler TxnOp)
| UseRunner (i : nat) (k : txn_method) (fuel : nat) (op : TxnOp)
| UseBase (k : txn_method) (fuel : nat) (op : TxnOp).

(** The outcomes of the operations of [acts], in order, with chains as
    values: the wrapper [r] keeps the chain it has, and the runner derived
    with [h] has that chain followed by [h].  The list ends with the first
    operation that does not return, or that names a runner not derived
    yet. *)
Fixpoint play_values (r : Env TxnOp) (acts : list action)
    (made : list (handlerRunner TxnOp)) (s : EnvState W)
  : list (outcome (W := W) error) :=
  match acts with
  | [] => []
  | MakeRunner h :: rest =>
      play_values r rest (made ++ [WithHandler r h]) s
  | UseRunner i k fuel op :: rest =>
      match nth_error made i with
      | None => []
      | Some tr =>
          match exec (runner_invoke k fuel tr op) s with
          | Returns err s' => Returns err s' :: play_values r rest made s'
          | o => [o]
          end
      end
  | UseBase k fuel op :: rest =>
      match exec (invoke k fuel r op) s with
      | Returns err s' => Returns err s' :: play_values r rest made s'
      | o => [o]
      end
  end.

(** Modelled from the spec: [HandlerChain.Append], which makes a new array
    one longer than the receiver, copies the receiver into it and puts [h]
    after it; the receiver's array is not written. *)
Definition Append (m : store) (c : slice) (h : Handler TxnOp) : slice * store :=
  (mkSlice (List.length m) (len c + 1) (len c + 1),
   m ++ [elems m c ++ [h]]).

(** An [Env] struct in memory: its address, the header in its field
    [Handlers] and its bag. *)
Record EnvMem : Type := mkEnvMem {
  m_self : nat;
  m_Handlers : slice;
  m_bag : Bag
}.

(** The wrapper as its methods see it when they read [r.Handlers]. *)
Definition load (m : store) (w : EnvMem) : Env TxnOp :=
  mkEnv (m_self w) (elems m (m_Handlers w)) (m_bag w).

(** Modelled from the spec: a [handlerRunner] struct in memory, the wrapper
    it points to and the header of its chain. *)
Record runnerMem : Type := mkRunnerMem {
  m_env : EnvMem;
  m_h : slice
}.

Definition load_runner (m : store) (tr : runnerMem) : handlerRunner TxnOp :=
  mkHandlerRunner (load m (m_env tr)) (elems m (m_h tr)).

(** [WithHandler] on memory: the new runner and the store after [Append]. *)
Definition WithHandler (m : store) (w : EnvMem) (h : Handler TxnOp)
  : runnerMem * store :=
  (mkRunnerMem w (fst (Append m (m_Handlers w) h)),
   snd (Append m (m_Handlers w) h)).

(** The store after the runners of [acts] have been derived. *)
Fixpoint store_after (w : EnvMem) (acts : list action) (m : store) : store :=
  match acts with
  | [] => m
  | MakeRunner h :: rest => store_after w rest (snd (WithHandler m w h))
  | _ :: rest => store_after w rest m
  end.

(** The same on memory, each chain read from memory when its operation is
    called. *)
Fixpoint play (w : EnvMem) (acts : list action) (m : store)
    (made : list runnerMem) (s : EnvState W) : list (outcome (W := W) error) :=
  match acts with
  | [] => []
  | MakeRunner h :: rest =>
      play w rest (snd (WithHandler m w h))
           (made ++ [fst (WithHandler m w h)]) s
  | UseRunner i k fuel op :: rest =>
      match nth_error made i with
      | None => []
      | Some tr =>
          match exec (runner_invoke k fuel (load_runner m tr) op) s with
          | Returns err s' => Returns err s' :: play w rest m made s'
          | o => [o]
          end
      end
  | UseBase k fuel op :: rest =>
      match exec (invoke k fuel (load m w) op) s with
      | Returns err s' => Returns err s' :: play w rest m made s'
      | o => [o]
      end
  end.

End Slices.
End Heap.

(** A session to run: a wrapper in memory whose chain is the baseline
    handler, a handler that turns [MapFull] into success, and a goroutine
    that derives a runner with it, updates through the runner, derives a
    second runner and then updates through the wrapper itself. *)
Module Rehearsal.

Definition memory : Heap.store (TxnOp := Scripted.TxnOp) :=
  [[MapResizedHandler 0 0]].

Definition wrapper : Heap.EnvMem :=
  Heap.mkEnvMem 1 (Heap.mkSlice 0 1 1) Background.

Definition forgiving : Handler Scripted.TxnOp :=
  mkHandler (fun b err =>
    match err with
    | MapFull => Ret (b, nilErr)
    | _ => Ret (b, err)
    end).

Definition session : list (Heap.action (TxnOp := Scripted.TxnOp)) :=
  [Heap.MakeRunner forgiving;
   Heap.UseRunner 0 mUpdate 2 (Scripted.failing MapFull);
   Heap.MakeRunner (MapResizedHandler 0 0);
   Heap.UseBase mUpdate 2 (Scripted.failing MapFull)].

End Rehearsal.

(** * Properties *)

Section Facts.
Context {W TxnOp : Type} {E : Engine W TxnOp}.

#[local] Abbreviation Prog := (Prog TxnOp).
#[local] Abbreviation EnvState := (EnvState W).

(** ** Running sequences *)

Lemma exec_bind {A B : Type} (p : Prog A) (f : A -> Prog B) (s : EnvState) :
  exec (bind p f) s =
  match exec p s with
  | Returns a s' => exec (f a) s'
  | Blocks c s' => Blocks c s'
  | Fatal c s' => Fatal c s'
  | Timeout => Timeout
  end.
Proof.
  revert s; induction p as [a | c k IH | ]; intros s; simpl; trivial.
  destruct (perform c s) as [x s' | | ]; auto.
Qed.

Lemma calls_bind {A B : Type} (p : Prog A) (f : A -> Prog B) (s : EnvState) :
  calls (bind p f) s =
  calls p s ++
  match exec p s with
  | Returns a s' => calls (f a) s'
  | _ => []
  end.
Proof.
  revert s; induction p as [a | c k IH | ]; intros s; simpl; trivial.
  destruct (perform c s) as [x s' | | ]; simpl; trivial.
  now rewrite IH.
Qed.

Lemma exec_bind_returns {A B : Type} (p : Prog A) (f : A -> Prog B) s a s' :
  exec p s = Returns a s' -> exec (bind p f) s = exec (f a) s'.
Proof. intros H; now rewrite exec_bind, H. Qed.

(** ** The mutex *)

Lemma acquire_held m l l' : acquire m l = Some l' -> held m l'.
Proof.
  destruct m; simpl; destruct (writer l); try discriminate.
  - intros [= <-]; simpl; split; [trivial | lia].
  - destruct (readers l); [intros [= <-]; now split | discriminate].
Qed.

Lemma release_acquire m l l' : acquire m l = Some l' -> release m l' = Some l.
Proof.
  destruct l as [w n]; destruct m; simpl; destruct w; try discriminate.
  - now intros [= <-].
  - destruct n; [now intros [= <-] | discriminate].
Qed.

Lemma acquire_exclusive_twice l l' :
  acquire Exclusive l = Some l' -> acquire Exclusive l' = None.
Proof.
  simpl; destruct (writer l); try discriminate.
  destruct (readers l); [now intros [= <-] | discriminate].
Qed.

End Facts.

(** ** Resizing *)

Section Resize.
Context {W TxnOp : Type} {E : Engine W TxnOp}.

(** The internal path [setMapSize], entered with the lock free: it takes the
    lock, calls the engine's resize once, gives the lock back and returns
    what the engine returned. *)
Lemma setMapSize_resizes_once (size delay : Z) (s : EnvState W) :
  txnlock s = unlocked ->
  exec (setMapSize size delay) s =
    Returns (fst (lmdb_SetMapSize size (lmdbEnv s)))
            (with_lmdbEnv s (snd (lmdb_SetMapSize size (lmdbEnv s)))) /\
  calls (setMapSize size delay) s =
    txnlock_Lock ::
    (if 0 <? delay then [time_Sleep delay] else []) ++
    [Env_SetMapSize size; txnlock_Unlock].
Proof.
  intros Hl. destruct s as [w nl l]; simpl in Hl; subst l.
  unfold setMapSize; destruct (0 <? delay); now split.
Qed.

(** C1: as the code has it, the public [SetMapSize] takes the exclusive
    lock and then enters [setMapSize], which asks for the same exclusive
    lock again.  Whatever the size and the state, the goroutine ends parked
    in a [Lock] call, it issues nothing but [Lock] calls, and so it never
    reaches the engine's resize and never returns. *)
Theorem SetMapSize_parks_on_its_own_lock (size : Z) (s : EnvState W) :
  (exists s', exec (SetMapSize size) s = Blocks txnlock_Lock s') /\
  Forall (fun c => c = txnlock_Lock) (calls (SetMapSize size) s).
Proof.
  destruct s as [w nl [[ | ] [ | n]]]; cbn;
    (split; [eauto | repeat constructor]).
Qed.

(** With the lock free at entry it is the second [Lock], the one inside
    [setMapSize], that the goroutine parks in, holding the lock itself. *)
Lemma SetMapSize_parks_holding_the_lock (size : Z) (s : EnvState W) :
  txnlock s = unlocked ->
  exec (SetMapSize size) s =
    Blocks txnlock_Lock (with_txnlock s (mkRWMutex true 0)) /\
  calls (SetMapSize size) s = [txnlock_Lock; txnlock_Lock].
Proof.
  destruct s as [w nl l]; simpl; intros ->; now split.
Qed.

End Resize.

(** ** Admission *)

Section Admission.
Context {W TxnOp : Type} {E : Engine W TxnOp}.

#[local] Abbreviation Prog := (Prog TxnOp).
#[local] Abbreviation EnvState := (EnvState W).

(** The test [r.noLock && !readonly] picks the mode of the admission rule. *)
Lemma run_with_lock (readonly : bool) (fn : Prog error) (s : EnvState) :
  exec (run readonly fn) s =
    exec (with_lock (admission_mode (noLock s) readonly) fn) s /\
  calls (run readonly fn) s =
    noLock_get :: calls (with_lock (admission_mode (noLock s) readonly) fn) s.
Proof.
  unfold run; simpl.
  destruct (noLock s), readonly; simpl; now split.
Qed.

(** Each of the four operations is the retry loop on its own engine call,
    with the read-only-ness it declares, the wrapper's chain and the
    wrapper's tagged bag. *)
Lemma invoke_loop (k : txn_method) (fuel : nat) (r : Env TxnOp) (op : TxnOp) :
  invoke k fuel r op =
  runHandler_loop fuel (declared_readonly k) (closure k op)
    (chainHandler (Handlers r)) (bagWithEnv (bag r) (Some (self r))).
Proof. now destruct k. Qed.

(** One turn of the loop: an attempt, then either the handler's answer or
    the rest of the loop on the bag the handler returned. *)
Lemma exec_loop_step (fuel : nat) (readonly : bool) (fn : Prog error)
    (h : Handler TxnOp) (b : Bag) (s : EnvState) :
  exec (runHandler_loop (S fuel) readonly fn h b) s =
  match exec (attempt readonly fn h b) s with
  | Returns x s' =>
      if is_RetryTxn (snd x)
      then exec (runHandler_loop fuel readonly fn h (fst x)) s'
      else Returns (snd x) s'
  | Blocks c s' => Blocks c s'
  | Fatal c s' => Fatal c s'
  | Timeout => Timeout
  end.
Proof.
  unfold attempt; cbn [runHandler_loop]; rewrite !exec_bind.
  destruct (exec (run readonly fn) s) as [err s1 | | | ]; trivial.
  rewrite exec_bind.
  destruct (exec (HandleTxnErr h b err) s1) as [x s2 | | | ]; trivial.
  now destruct (is_RetryTxn (snd x)).
Qed.

(** The engine call of an operation never parks and leaves the wrapper's
    own fields alone. *)
Lemma exec_closure (k : txn_method) (op : TxnOp) (s : EnvState) :
  (exists (err : error) (w : W),
     exec (closure k op) s = Returns err (with_lmdbEnv s w)) /\
  calls (closure k op) s = [engine_body k op].
Proof. destruct k; simpl; unfold engine_call; eauto. Qed.

(** C2: every attempt of [RunTxn], [View], [Update] and [UpdateLocked]
    takes the admission lock in the mode the rule gives for the lock-mode
    flag as it is when the attempt starts (shared when the flag is unset;
    when it is set, exclusive for a write and shared for a read), runs the
    engine body with the lock held in that mode, and releases it after the
    body; an attempt that cannot get the lock waits in the call of that
    mode. *)
Theorem attempts_follow_admission_rule (k : txn_method) (r : Env TxnOp)
    (op : TxnOp) (fuel : nat) (h : Handler TxnOp) (b : Bag) (s : EnvState) :
  let readonly := declared_readonly k in
  let m := admission_mode (noLock s) readonly in
  invoke k fuel r op =
    runHandler_loop fuel readonly (closure k op) (chainHandler (Handlers r))
      (bagWithEnv (bag r) (Some (self r))) /\
  exec (runHandler_loop (S fuel) readonly (closure k op) h b) s =
    exec (err <- with_lock m (closure k op) ;;
          x <- HandleTxnErr h b err ;;
          if negb (is_RetryTxn (snd x)) then Ret (snd x)
          else runHandler_loop fuel readonly (closure k op) h (fst x)) s /\
  (forall l, acquire m (txnlock s) = Some l ->
     held m l /\
     exists err s1,
       exec (closure k op) (with_txnlock s l) = Returns err s1 /\
       exec (run readonly (closure k op)) s =
         Returns err (with_txnlock s1 (txnlock s)) /\
       calls (run readonly (closure k op)) s =
         [noLock_get; lock_of m; engine_body k op; unlock_of m]) /\
  (acquire m (txnlock s) = None ->
     exec (run readonly (closure k op)) s = Blocks (lock_of m) s /\
     calls (run readonly (closure k op)) s = [noLock_get; lock_of m]).
Proof.
  intros readonly m.
  split; [apply invoke_loop | ].
  split.
  { cbn [runHandler_loop]. rewrite !exec_bind.
    now rewrite (proj1 (run_with_lock readonly (closure k op) s)). }
  destruct (run_with_lock readonly (closure k op) s) as [He Hc].
  rewrite He, Hc; fold m; clear He Hc.
  split.
  - intros l Ha. split; [exact (acquire_held _ _ _ Ha) | ].
    destruct (exec_closure k op (with_txnlock s l)) as [(err & w & Hp) Hq].
    exists err, (with_lmdbEnv (with_txnlock s l) w). split; [exact Hp | ].
    pose proof (release_acquire _ _ _ Ha) as Hr.
    unfold with_lock.
    destruct m; cbn [exec calls perform lock_of unlock_of];
      unfold lock_call; rewrite Ha;
      rewrite exec_bind, calls_bind, Hp, Hq; cbn;
      unfold unlock_call; cbn [txnlock with_lmdbEnv with_txnlock];
      rewrite Hr; now split.
  - intros Ha. unfold with_lock.
    destruct m; cbn; unfold lock_call; rewrite Ha; now split.
Qed.

End Admission.

(** ** The retry protocol *)

Section Retry.
Context {W TxnOp : Type} {E : Engine W TxnOp}.

#[local] Abbreviation Prog := (Prog TxnOp).
#[local] Abbreviation EnvState := (EnvState W).

Lemma settles_not_retry ro (fn : Prog error) h n b (s : EnvState) err s' :
  settles ro fn h n b s err s' -> err <> RetryTxn /\ (0 < n)%nat.
Proof. induction 1 as [ | ? ? ? ? ? ? ? ? ? [IH1 IH2]]; split; auto; lia. Qed.

Lemma is_RetryTxn_false err : err <> RetryTxn -> is_RetryTxn err = false.
Proof. destruct err; trivial; congruence. Qed.

Lemma is_RetryTxn_true err : is_RetryTxn err = true -> err = RetryTxn.
Proof. destruct err; trivial; discriminate. Qed.

(** With enough turns the loop returns what the first settling attempt
    produced. *)
Lemma loop_of_settles ro (fn : Prog error) h n b (s : EnvState) err s' :
  settles ro fn h n b s err s' ->
  forall fuel, (n <= fuel)%nat ->
  exec (runHandler_loop fuel ro fn h b) s = Returns err s'.
Proof.
  induction 1 as [b s b' err s' Ha Hne | k b s b1 s1 err s' Ha _ IH];
    intros [ | fuel] Hle; try lia; rewrite exec_loop_step, Ha; cbn.
  - now rewrite (is_RetryTxn_false _ Hne).
  - apply IH; lia.
Qed.

(** Whatever the loop returns is what a first settling attempt produced. *)
Lemma settles_of_loop ro (fn : Prog error) h fuel :
  forall b (s : EnvState) err s',
  exec (runHandler_loop fuel ro fn h b) s = Returns err s' ->
  exists n, (n <= fuel)%nat /\ settles ro fn h n b s err s'.
Proof.
  induction fuel as [ | fuel IH]; intros b s err s' Hx; [discriminate | ].
  rewrite exec_loop_step in Hx.
  destruct (exec (attempt ro fn h b) s) as [[b1 e1] s1 | | | ] eqn:Ha;
    try discriminate.
  cbn in Hx. destruct (is_RetryTxn e1) eqn:Hr.
  - apply is_RetryTxn_true in Hr; subst e1.
    destruct (IH _ _ _ _ Hx) as (n & Hn & Hs).
    exists (S n); split; [lia | ]. eapply settles_retry; eauto.
  - injection Hx as <- <-. exists 1%nat; split; [lia | ].
    eapply settles_done; eauto. intros ->; discriminate.
Qed.

(** C3: an operation returns [err] in state [s'] exactly when some attempt
    within its budget is the first whose chain output is not [RetryTxn],
    that output is [err] and [s'] is the state the chain left; every chain
    output [RetryTxn] before it was followed by one more attempt (lock,
    engine body, unlock, chain). *)
Theorem operation_returns_first_settled_output (k : txn_method)
    (r : Env TxnOp) (op : TxnOp) (fuel : nat) (s s' : EnvState) (err : error) :
  exec (invoke k fuel r op) s = Returns err s' <->
  exists n, (n <= fuel)%nat /\
    settles (declared_readonly k) (closure k op) (chainHandler (Handlers r))
      n (bagWithEnv (bag r) (Some (self r))) s err s'.
Proof.
  rewrite invoke_loop. split.
  - apply settles_of_loop.
  - intros (n & Hn & Hs). eapply loop_of_settles; eauto.
Qed.

End Retry.

(** ** Retrying after a resize race *)

Section RetryCorrectness.
Context {W TxnOp : Type} {E : Engine W TxnOp}.

#[local] Abbreviation EnvState := (EnvState W).

(** An update attempt that finds the lock free runs the engine body and
    leaves the lock free, in either locking mode. *)
Lemma run_Update_free (op : TxnOp) (s : EnvState) :
  txnlock s = unlocked ->
  exec (run false (call (Env_Update op))) s =
    Returns (fst (lmdb_Update op (lmdbEnv s)))
            (with_lmdbEnv s (snd (lmdb_Update op (lmdbEnv s)))).
Proof.
  destruct s as [w nl l]; simpl; intros ->; now destruct nl.
Qed.

Variable r : Env TxnOp.
Variable op : TxnOp.
Variable N : nat.

(** [invoked w]: how many times the body has been invoked so far, as the
    state behind the engine handle records it. *)
Variable invoked : W -> nat.

Hypothesis body_counts :
  forall w, invoked (snd (lmdb_Update op w)) = S (invoked w).
Hypothesis body_resized :
  forall w, (S (invoked w) < N)%nat -> fst (lmdb_Update op w) = MapResized.
Hypothesis body_succeeds :
  forall w, S (invoked w) = N -> fst (lmdb_Update op w) = nilErr.

(** The chain behaves as the baseline handler does: entered with the lock
    free, it answers the resize-race error with [RetryTxn] and success with
    success, leaves the lock free and does not invoke the body. *)
Hypothesis chain_retries :
  forall b (s : EnvState), txnlock s = unlocked ->
  exists b' s',
    exec (chain_HandleTxnErr (Handlers r) b MapResized) s =
      Returns (b', RetryTxn) s' /\
    txnlock s' = unlocked /\ invoked (lmdbEnv s') = invoked (lmdbEnv s).
Hypothesis chain_passes_success :
  forall b (s : EnvState), txnlock s = unlocked ->
  exists b' s',
    exec (chain_HandleTxnErr (Handlers r) b nilErr) s = Returns (b', nilErr) s' /\
    invoked (lmdbEnv s') = invoked (lmdbEnv s).

Lemma update_loop_retries (todo : nat) :
  forall (fuel : nat) (b : Bag) (s : EnvState),
  txnlock s = unlocked ->
  (invoked (lmdbEnv s) + S todo = N)%nat ->
  (S todo <= fuel)%nat ->
  exists s',
    exec (runHandler_loop fuel false (call (Env_Update op))
            (chainHandler (Handlers r)) b) s = Returns nilErr s' /\
    invoked (lmdbEnv s') = N.
Proof.
  induction todo as [ | todo IH]; intros [ | fuel] b s Hl Hn Hf; try lia;
    rewrite exec_loop_step; unfold attempt;
    rewrite (exec_bind_returns _ _ _ _ _ (run_Update_free op s Hl)); cbn.
  - rewrite body_succeeds by lia.
    destruct (chain_passes_success b
                (with_lmdbEnv s (snd (lmdb_Update op (lmdbEnv s)))) Hl)
      as (b' & s' & -> & Hi).
    cbn. exists s'; split; trivial.
    rewrite Hi; cbn; rewrite body_counts; lia.
  - rewrite body_resized by lia.
    destruct (chain_retries b
                (with_lmdbEnv s (snd (lmdb_Update op (lmdbEnv s)))) Hl)
      as (b' & s' & -> & Hl' & Hi).
    cbn. apply IH; trivial; [ | lia].
    rewrite Hi; cbn; rewrite body_counts; lia.
Qed.

(** C4: when the body reports the resize race on its first [N - 1]
    invocations and succeeds on invocation [N], and the chain turns the
    resize race into [RetryTxn] as the baseline handler does, [Update]
    returns no error and the body has been invoked exactly [N] times. *)
Theorem Update_retries_until_success (fuel : nat) (s : EnvState) :
  (0 < N)%nat ->
  invoked (lmdbEnv s) = 0%nat ->
  txnlock s = unlocked ->
  (N <= fuel)%nat ->
  exists s',
    exec (Update fuel r op) s = Returns nilErr s' /\
    invoked (lmdbEnv s') = N.
Proof.
  intros HN H0 Hl Hf. unfold Update, runHandler.
  apply (update_loop_retries (pred N)); trivial; lia.
Qed.

End RetryCorrectness.

(** ** Flags *)

Section Flags.
Context {W TxnOp : Type} {E : Engine W TxnOp}.

#[local] Abbreviation EnvState := (EnvState W).

Lemma is_nil_false err : err <> nilErr -> is_nil err = false.
Proof. destruct err; trivial; congruence. Qed.

(** C5: when the engine call of [Open], [SetFlags] or [UnsetFlags] fails,
    the proxy returns that error and the wrapper's [noLock] (like its lock)
    is as before; when the engine call succeeds, the proxy returns nil and
    [noLock] becomes true ([Open], [SetFlags]) or false ([UnsetFlags]) if
    the flags argument carries the [NoLock] bit, and stays as it was if it
    does not. *)
Theorem flag_proxies_update_noLock_on_success_only
    (path : string) (flags fmode : Z) (s : EnvState) :
  let o := lmdb_Open path flags fmode (lmdbEnv s) in
  let sf := lmdb_SetFlags flags (lmdbEnv s) in
  let uf := lmdb_UnsetFlags flags (lmdbEnv s) in
  (fst o <> nilErr ->
     exec (Open path flags fmode) s = Returns (fst o) (with_lmdbEnv s (snd o))) /\
  (fst o = nilErr ->
     exec (Open path flags fmode) s =
       Returns nilErr
         (with_noLock (with_lmdbEnv s (snd o))
            (if has_flag flags NoLock then true else noLock s))) /\
  (fst sf <> nilErr ->
     exec (SetFlags flags) s = Returns (fst sf) (with_lmdbEnv s (snd sf))) /\
  (fst sf = nilErr ->
     exec (SetFlags flags) s =
       Returns nilErr
         (with_noLock (with_lmdbEnv s (snd sf))
            (if has_flag flags NoLock then true else noLock s))) /\
  (fst uf <> nilErr ->
     exec (UnsetFlags flags) s = Returns (fst uf) (with_lmdbEnv s (snd uf))) /\
  (fst uf = nilErr ->
     exec (UnsetFlags flags) s =
       Returns nilErr
         (with_noLock (with_lmdbEnv s (snd uf))
            (if has_flag flags NoLock then false else noLock s))).
Proof.
  intros o sf uf.
  unfold Open, SetFlags, UnsetFlags; cbn; unfold engine_call; fold o sf uf.
  repeat split; intros H;
    solve [ rewrite (is_nil_false _ H); reflexivity
          | rewrite H; cbn; destruct (has_flag flags NoLock); reflexivity ].
Qed.

End Flags.

(** ** Mode transitions *)

Section Transitions.
Context {W TxnOp : Type} {E : Engine W TxnOp}.

#[local] Abbreviation Prog := (Prog TxnOp).
#[local] Abbreviation EnvState := (EnvState W).

(** The first call of an attempt after reading the flag is the lock call of
    its mode, whether it gets the lock or waits for it. *)
Lemma calls_run_head (readonly : bool) (fn : Prog error) (s : EnvState) :
  exists rest,
    calls (run readonly fn) s =
      noLock_get :: lock_of (admission_mode (noLock s) readonly) :: rest.
Proof.
  rewrite (proj2 (run_with_lock readonly fn s)).
  destruct (admission_mode (noLock s) readonly); cbn;
    match goal with
    | |- context [lock_call ?m ?s] => destruct (lock_call m s)
    end; eauto.
Qed.

Lemma calls_loop_head (fuel : nat) (readonly : bool) (fn : Prog error)
    (h : Handler TxnOp) (b : Bag) (s : EnvState) :
  exists rest,
    calls (runHandler_loop (S fuel) readonly fn h b) s =
      noLock_get :: lock_of (admission_mode (noLock s) readonly) :: rest.
Proof.
  cbn [runHandler_loop]. rewrite calls_bind.
  destruct (calls_run_head readonly fn s) as [rest ->]. cbn. eauto.
Qed.

Lemma SetFlags_success (flags : Z) (s s1 : EnvState) :
  exec (SetFlags flags) s = Returns nilErr s1 ->
  has_flag flags NoLock = true -> noLock s1 = true.
Proof.
  unfold SetFlags; cbn; unfold engine_call.
  destruct (is_nil (fst (lmdb_SetFlags flags (lmdbEnv s)))) eqn:Hn; cbn.
  - intros H Hb; rewrite Hb in H; cbn in H. now injection H as <-.
  - intros [= He _]. rewrite He in Hn; discriminate.
Qed.

Lemma UnsetFlags_success (flags : Z) (s s1 : EnvState) :
  exec (UnsetFlags flags) s = Returns nilErr s1 ->
  has_flag flags NoLock = true -> noLock s1 = false.
Proof.
  unfold UnsetFlags; cbn; unfold engine_call.
  destruct (is_nil (fst (lmdb_UnsetFlags flags (lmdbEnv s)))) eqn:Hn; cbn.
  - intros H Hb; rewrite Hb in H; cbn in H. now injection H as <-.
  - intros [= He _]. rewrite He in Hn; discriminate.
Qed.

(** C6: after a [SetFlags] that succeeded with the [NoLock] bit in its
    flags, the next [Update] goes for the exclusive lock; after an
    [UnsetFlags] that succeeded with that bit, read attempts (and write
    attempts too) go for the shared lock. *)
Theorem mode_follows_flag_change (flags : Z) (r : Env TxnOp) (op : TxnOp)
    (fuel : nat) (s s1 : EnvState) :
  has_flag flags NoLock = true ->
  (exec (SetFlags flags) s = Returns nilErr s1 ->
     noLock s1 = true /\
     (exists rest,
        calls (Update (S fuel) r op) s1 = noLock_get :: txnlock_Lock :: rest) /\
     (forall fn, exec (run false fn) s1 = exec (with_lock Exclusive fn) s1)) /\
  (exec (UnsetFlags flags) s = Returns nilErr s1 ->
     noLock s1 = false /\
     (exists rest,
        calls (View (S fuel) r op) s1 = noLock_get :: txnlock_RLock :: rest) /\
     (exists rest,
        calls (Update (S fuel) r op) s1 = noLock_get :: txnlock_RLock :: rest) /\
     (forall readonly fn,
        exec (run readonly fn) s1 = exec (with_lock Shared fn) s1)).
Proof.
  intros Hb; split; intros Hx.
  - pose proof (SetFlags_success _ _ _ Hx Hb) as Hn.
    split; [exact Hn | split].
    + unfold Update, runHandler.
      destruct (calls_loop_head fuel false (call (Env_Update op))
                  (chainHandler (Handlers r))
                  (bagWithEnv (bag r) (Some (self r))) s1) as [rest Hc].
      rewrite Hn in Hc. eauto.
    + intros fn. rewrite (proj1 (run_with_lock false fn s1)). now rewrite Hn.
  - pose proof (UnsetFlags_success _ _ _ Hx Hb) as Hn.
    split; [exact Hn | split; [ | split]].
    + unfold View, runHandler.
      destruct (calls_loop_head fuel true (call (Env_View op))
                  (chainHandler (Handlers r))
                  (bagWithEnv (bag r) (Some (self r))) s1) as [rest Hc].
      rewrite Hn in Hc. eauto.
    + unfold Update, runHandler.
      destruct (calls_loop_head fuel false (call (Env_Update op))
                  (chainHandler (Handlers r))
                  (bagWithEnv (bag r) (Some (self r))) s1) as [rest Hc].
      rewrite Hn in Hc. eauto.
    + intros ro fn. rewrite (proj1 (run_with_lock ro fn s1)). now rewrite Hn.
Qed.

End Transitions.

(** ** Construction *)

Section Construction.
Context {W TxnOp : Type} {E : Engine W TxnOp}.

(** C7: [NewEnv] asks the engine handle it is given for its flags.  When
    the query succeeds with the [NoLock] bit set, the wrapper starts with
    [noLock] true; when the query fails with [EINVAL], [NewEnv] still builds
    the wrapper, with [noLock] read off the flags that came with the error,
    hence false for the zero flags a failed query reports; when the query
    fails with any other error, [NewEnv] returns that error. *)
Theorem NewEnv_reads_engine_flags (a : nat) (e : W) (h : list (Handler TxnOp)) :
  let flags := fst (lmdb_Flags e) in
  let err := snd (lmdb_Flags e) in
  (err = nilErr -> has_flag flags NoLock = true ->
     NewEnv a (Some e) h =
       Built (mkEnv a h Background) (mkEnvState e true unlocked)) /\
  (err = ErrnoSys EINVAL ->
     NewEnv a (Some e) h =
       Built (mkEnv a h Background)
             (mkEnvState e (has_flag flags NoLock) unlocked) /\
     (flags = 0 ->
        NewEnv a (Some e) h =
          Built (mkEnv a h Background) (mkEnvState e false unlocked))) /\
  (err <> nilErr -> IsErrnoSys err EINVAL = false ->
     NewEnv a (Some e) h = Failed err).
Proof.
  intros flags err; unfold NewEnv; fold flags err; cbn.
  split; [ | split].
  - intros -> ->; reflexivity.
  - intros ->; split; [reflexivity | intros ->; reflexivity].
  - intros Hn ->. now rewrite (is_nil_false _ Hn).
Qed.

End Construction.

(** ** Runners *)

Section Runners.
Context {W TxnOp : Type} {E : Engine W TxnOp}.

(** A chain with one more handler runs the chain and then that handler on
    what the chain produced. *)
Lemma chain_HandleTxnErr_app (c : HandlerChain TxnOp) (h0 : Handler TxnOp)
    (b : Bag) (err : error) (s : EnvState W) :
  exec (chain_HandleTxnErr (c ++ [h0]) b err) s =
  exec (x <- chain_HandleTxnErr c b err ;; HandleTxnErr h0 (fst x) (snd x)) s.
Proof.
  revert b err s; induction c as [ | h1 c IH]; intros b err s; cbn.
  - rewrite exec_bind.
    destruct (exec (HandleTxnErr h0 b err) s) as [[b' e'] s' | | | ]; trivial.
  - rewrite !exec_bind.
    destruct (exec (HandleTxnErr h1 b err) s) as [x s' | | | ]; trivial.
    rewrite IH. now rewrite exec_bind.
Qed.

(** With chains as values: [WithHandler r h0] is a runner on the same
    wrapper whose chain is the wrapper's chain followed by [h0]; its
    operations are the retry loop with that longer chain, which runs the
    wrapper's chain and then [h0]. *)
Theorem WithHandler_appends_to_a_new_chain (r : Env TxnOp) (h0 : Handler TxnOp)
    (k : txn_method) (op : TxnOp) (fuel : nat) (b : Bag) (err : error)
    (s : EnvState W) :
  let tr := WithHandler r h0 in
  h tr = Handlers r ++ [h0] /\
  env tr = r /\
  Handlers (env tr) = Handlers r /\
  runner_invoke k fuel tr op =
    runHandler_loop fuel (declared_readonly k) (closure k op)
      (chainHandler (Handlers r ++ [h0])) (bagWithEnv (bag r) (Some (self r))) /\
  exec (HandleTxnErr (chainHandler (h tr)) b err) s =
    exec (x <- chain_HandleTxnErr (Handlers r) b err ;;
          HandleTxnErr h0 (fst x) (snd x)) s /\
  invoke k fuel (env tr) op =
    runHandler_loop fuel (declared_readonly k) (closure k op)
      (chainHandler (Handlers r)) (bagWithEnv (bag r) (Some (self r))).
Proof.
  cbn. repeat (split; [reflexivity | ]).
  split; [now destruct k | ].
  split; [apply chain_HandleTxnErr_app | now destruct k].
Qed.

End Runners.

(** ** Bags *)

Section Bags.
Context {W TxnOp : Type} {E : Engine W TxnOp}.

Lemma Value_unbound (b : Bag) (key : value) :
  bound b key = false -> Value b key = VNil.
Proof.
  induction b as [ | b IH k v]; cbn; trivial.
  destruct (value_eqb key k); cbn; [discriminate | exact IH].
Qed.

Lemma NewEnv_Built (a : nat) (e : option W) (hs : list (Handler TxnOp))
    (r : Env TxnOp) (s : EnvState W) :
  NewEnv a e hs = Built r s ->
  self r = a /\ Handlers r = hs /\ bag r = Background /\ txnlock s = unlocked.
Proof.
  unfold NewEnv.
  destruct (match e with Some e0 => inl e0 | None => lmdb_NewEnv end)
    as [w | err]; [ | destruct (is_nil err); discriminate].
  cbn. destruct (IsErrnoSys _ _); [ | destruct (negb _); [discriminate | ]];
    intros [= <- <-]; auto.
Qed.

(** C9: tagging a bag with a wrapper and looking the wrapper up gives that
    wrapper back.  Every operation starts its loop by handing the chain,
    after the first attempt, the wrapper's bag tagged with the wrapper's own
    address; a wrapper from [NewEnv] has the background bag, so the chain
    finds the invoking wrapper in the bag it is given. *)
Theorem BagEnv_finds_tagged_wrapper (b : Bag) (p : EnvPtr) (k : txn_method)
    (r : Env TxnOp) (op : TxnOp) (fuel : nat) :
  BagEnv (bagWithEnv b p) = p /\
  invoke k (S fuel) r op =
    (err <- run (declared_readonly k) (closure k op) ;;
     x <- chain_HandleTxnErr (Handlers r) (bagWithEnv (bag r) (Some (self r))) err ;;
     if negb (is_RetryTxn (snd x)) then Ret (snd x)
     else runHandler_loop fuel (declared_readonly k) (closure k op)
            (chainHandler (Handlers r)) (fst x)) /\
  BagEnv (bagWithEnv (bag r) (Some (self r))) = Some (self r) /\
  (forall a e hs s, NewEnv a e hs = Built r s ->
     bagWithEnv (bag r) (Some (self r)) = BagWith Background (envBagKey 0) (VEnv (Some a))).
Proof.
  split; [reflexivity | ].
  split; [now destruct k | ].
  split; [reflexivity | ].
  intros a e hs s H. apply NewEnv_Built in H as (-> & _ & -> & _). reflexivity.
Qed.

(** C10: [BagEnv] answers nil for a bag that does not bind the private key
    and for a bag whose binding of that key is not a [*Env]. *)
Theorem BagEnv_nil_without_wrapper (b : Bag) :
  (bound b (envBagKey 0) = false -> BagEnv b = None) /\
  (forall v, Value b (envBagKey 0) = v ->
     (forall p, v <> VEnv p) -> BagEnv b = None).
Proof.
  unfold BagEnv; split.
  - intros H; now rewrite (Value_unbound _ _ H).
  - intros v <- Hv. destruct (Value b (envBagKey 0)) as [ | | | | q]; trivial.
    now destruct (Hv q).
Qed.

End Bags.

(** * Interleavings *)

Section Interleavings.
Context {W TxnOp : Type} {E : Engine W TxnOp}.

#[local] Abbreviation Prog := (Prog TxnOp).
#[local] Abbreviation EnvState := (EnvState W).

(** ** What a lock call needs and does *)

Lemma perform_lock_of (m : mode) (s : EnvState) x s' :
  perform (lock_of m) s = Proceeds x s' ->
  exists l, acquire m (txnlock s) = Some l /\ s' = with_txnlock s l.
Proof.
  assert (H : forall y, lock_call m s = Proceeds y s' ->
            exists l, acquire m (txnlock s) = Some l /\ s' = with_txnlock s l).
  { unfold lock_call. destruct (acquire m (txnlock s)) as [l | ];
      [intros y [= _ <-]; eauto | discriminate]. }
  destruct m; apply H.
Qed.

Lemma perform_unlock_of (m : mode) (s : EnvState) x s' :
  perform (unlock_of m) s = Proceeds x s' ->
  exists l, release m (txnlock s) = Some l /\ s' = with_txnlock s l.
Proof.
  assert (H : forall y, unlock_call m s = Proceeds y s' ->
            exists l, release m (txnlock s) = Some l /\ s' = with_txnlock s l).
  { unfold unlock_call. destruct (release m (txnlock s)) as [l | ];
      [intros y [= _ <-]; eauto | discriminate]. }
  destruct m; apply H.
Qed.

Lemma perform_other (c : Call TxnOp) (s : EnvState) x s' :
  is_lock_call c = false ->
  perform c s = Proceeds x s' -> txnlock s' = txnlock s.
Proof.
  destruct c; cbn; try discriminate; unfold engine_call;
    intros _ [= _ <-]; reflexivity.
Qed.

(** ** Pools and stances *)

Lemma holders_replace (m : mode) (sts : list stance) :
  forall i st st',
  nth_error sts i = Some st ->
  (holders m (replace_nth i st' sts) + weight m st =
   holders m sts + weight m st')%nat.
Proof.
  induction sts as [ | a sts IH]; intros [ | i] st st'; cbn; try discriminate.
  - intros [= ->]; lia.
  - intros H; specialize (IH _ _ st' H); lia.
Qed.

Lemma holders_one (m : mode) (sts : list stance) :
  forall i a, nth_error sts i = Some a -> (weight m a <= holders m sts)%nat.
Proof.
  induction sts as [ | c sts IH]; intros [ | i] a; cbn; try discriminate.
  - intros [= ->]; lia.
  - intros H; specialize (IH _ _ H); lia.
Qed.

Lemma holders_two (m : mode) (sts : list stance) :
  forall i j a b, i <> j ->
  nth_error sts i = Some a -> nth_error sts j = Some b ->
  (weight m a + weight m b <= holders m sts)%nat.
Proof.
  induction sts as [ | c sts IH]; intros [ | i] [ | j] a b Hij; cbn;
    try discriminate; try congruence.
  - intros [= ->] H; pose proof (holders_one m sts _ _ H); lia.
  - intros H [= ->]; pose proof (holders_one m sts _ _ H); lia.
  - intros Ha Hb. assert (i <> j) by congruence.
    specialize (IH _ _ _ _ H Ha Hb); lia.
Qed.

Lemma Forall2_nth_error_r {A B : Type} (R : A -> B -> Prop) (xs : list A)
    (ys : list B) :
  Forall2 R xs ys ->
  forall i y, nth_error ys i = Some y ->
  exists x, nth_error xs i = Some x /\ R x y.
Proof.
  induction 1 as [ | x y xs ys Hxy _ IH]; intros [ | i] y0; cbn;
    try discriminate.
  - intros [= <-]; eauto.
  - apply IH.
Qed.

Lemma Forall2_replace_nth {A B : Type} (R : A -> B -> Prop) (xs : list A)
    (ys : list B) (x : A) (y : B) :
  Forall2 R xs ys -> R x y ->
  forall i, Forall2 R (replace_nth i x xs) (replace_nth i y ys).
Proof.
  induction 1 as [ | x0 y0 xs ys Hxy Hall IH]; intros Hr [ | i]; cbn;
    constructor; auto.
Qed.

Lemma nth_error_replace_nth_same {A : Type} (l : list A) (y : A) :
  forall i x, nth_error l i = Some x -> nth_error (replace_nth i y l) i = Some y.
Proof.
  induction l as [ | a l IH]; intros [ | i] x; cbn; try discriminate; eauto.
Qed.

Lemma nth_error_replace_nth_other {A : Type} (l : list A) (y : A) :
  forall i j, i <> j -> nth_error (replace_nth i y l) j = nth_error l j.
Proof.
  induction l as [ | a l IH]; intros [ | i] [ | j] H; cbn; trivial;
    try congruence.
  apply IH; congruence.
Qed.

(** What a goroutine that keeps to the protocol can have as its next
    call. *)
Lemma moves_inv {A : Type} (st st' : stance) (p : Prog A) :
  moves st p st' ->
  match p with
  | Do c k =>
      (is_lock_call c = false /\ forall x, moves st (k x) st') \/
      (exists m, c = lock_of m /\ st = None /\
                 forall x, moves (Some m) (k x) st') \/
      (exists m, c = unlock_of m /\ st = Some m /\
                 forall x, moves None (k x) st') \/
      (c = txnlock_Lock /\ st <> None) \/
      (c = txnlock_RLock /\ st = Some Exclusive)
  | _ => True
  end.
Proof.
  destruct 1; trivial.
  - right; left; eauto.
  - right; right; left; eauto.
  - left; auto.
  - right; right; right; left; split; [trivial | discriminate].
  - right; right; right; right; auto.
Qed.

(** ** The protocol is kept along every interleaving *)

Ltac agrees_cases Ha :=
  unfold agrees, stance in *; cbn in Ha |- *;
  destruct Ha as [(Hw & Hr & He & Hsh) | (Hw & Hr & He)];
  try discriminate;
  solve [ left; split; [reflexivity | split; [lia | split; lia]]
        | right; split; [reflexivity | split; lia]
        | left; split; [assumption | split; [lia | split; lia]]
        | right; split; [assumption | split; lia]
        | exfalso; lia ].

(** A step of goroutine [i], which has stance [st]: the goroutine gets a
    stance [st'] for what it has left to run, and the mutex agrees with the
    stances again.  A [Lock] that proceeds was asked for by a goroutine that
    held nothing. *)
Lemma advance_keeps_order (sts : list stance) (i : nat) (st : stance)
    (p p' : Prog error) (s s' : EnvState) :
  agrees sts (txnlock s) ->
  nth_error sts i = Some st ->
  moves st p None ->
  advance p s = Some (p', s') ->
  exists st',
    moves st' p' None /\
    agrees (replace_nth i st' sts) (txnlock s') /\
    (asks_Lock p = true -> st = None /\ st' = Some Exclusive).
Proof.
  intros Ha Hst Hm Hp.
  destruct p as [a | c k | ]; try discriminate. cbn in Hp.
  destruct (perform c s) as [x s1 | | ] eqn:Hc; try discriminate.
  injection Hp as <- <-.
  apply moves_inv in Hm.
  pose proof (holders_replace Exclusive sts i st) as HE.
  pose proof (holders_replace Shared sts i st) as HS.
  destruct Hm as [(Hl & Hk) | [(m & -> & -> & Hk) | [(m & -> & -> & Hk)
                 | [(-> & Hne) | (-> & ->)]]]].
  - exists st. split; [apply Hk | split].
    + rewrite (perform_other _ _ _ _ Hl Hc).
      specialize (HE st Hst); specialize (HS st Hst).
      agrees_cases Ha.
    + destruct c; cbn in Hl |- *; discriminate.
  - apply perform_lock_of in Hc as (l & Hacq & ->).
    exists (Some m). split; [apply Hk | split].
    + specialize (HE (Some m) Hst); specialize (HS (Some m) Hst).
      cbn [txnlock with_txnlock].
      destruct (txnlock s) as [w n]; destruct m, w, n; cbn in Hacq;
        try discriminate; injection Hacq as <-; cbn in HE, HS;
        agrees_cases Ha.
    + destruct m; cbn; [discriminate | auto].
  - apply perform_unlock_of in Hc as (l & Hrel & ->).
    exists None. split; [apply Hk | split].
    + specialize (HE None Hst); specialize (HS None Hst).
      cbn [txnlock with_txnlock].
      destruct (txnlock s) as [w n]; destruct m, w, n; cbn in Hrel;
        try discriminate; injection Hrel as <-; cbn in HE, HS;
        agrees_cases Ha.
    + destruct m; cbn; discriminate.
  - exfalso. apply (perform_lock_of Exclusive) in Hc as (l & Hacq & _).
    destruct st as [m | ]; [ | congruence].
    pose proof (holders_one m sts _ _ Hst) as H1.
    destruct (txnlock s) as [w n]; destruct w, n; cbn in Hacq;
      try discriminate.
    destruct m; cbn in H1; agrees_cases Ha.
  - exfalso. apply (perform_lock_of Shared) in Hc as (l & Hacq & _).
    pose proof (holders_one Exclusive sts _ _ Hst) as H1.
    destruct (txnlock s) as [w n]; destruct w; cbn in Hacq;
      try discriminate.
    cbn in H1; agrees_cases Ha.
Qed.

Lemma step_keeps_order (sts : list stance) (ps ps' : pool) (s s' : EnvState) :
  orderly sts ps -> agrees sts (txnlock s) ->
  step (ps, s) (ps', s') ->
  exists sts', orderly sts' ps' /\ agrees sts' (txnlock s').
Proof.
  intros Ho Ha Hs. inversion Hs as [ps0 s0 i p p' s0' Hn Hp]; subst.
  destruct (Forall2_nth_error_r _ _ _ Ho _ _ Hn) as (st & Hst & Hm).
  destruct (advance_keeps_order _ _ _ _ _ _ _ Ha Hst Hm Hp)
    as (st' & Hm' & Ha' & _).
  exists (replace_nth i st' sts). split; [ | exact Ha'].
  apply Forall2_replace_nth; auto.
Qed.

Lemma steps_keep_order (cfg cfg' : pool * EnvState) :
  steps cfg cfg' ->
  forall sts, orderly sts (fst cfg) -> agrees sts (txnlock (snd cfg)) ->
  exists sts', orderly sts' (fst cfg') /\ agrees sts' (txnlock (snd cfg')).
Proof.
  induction 1 as [cfg | [ps s] [ps1 s1] cfg2 H1 _ IH]; intros sts Ho Ha; eauto.
  destruct (step_keeps_order _ _ _ _ _ Ho Ha H1) as (sts1 & Ho1 & Ha1).
  exact (IH _ Ho1 Ha1).
Qed.

(** ** The wrapper's methods keep to the protocol *)

Lemma moves_bind {A B : Type} (st st1 st2 : stance) (p : Prog A)
    (f : A -> Prog B) :
  moves st p st1 -> (forall a, moves st1 (f a) st2) ->
  moves st (bind p f) st2.
Proof.
  intros Hp Hf; induction Hp; cbn; auto;
    solve [ constructor; auto
          | apply moves_lock; auto
          | apply moves_unlock; auto ].
Qed.

Lemma moves_closure (k : txn_method) (op : TxnOp) (st : stance) :
  moves st (closure k op) st.
Proof.
  destruct k; apply moves_other; trivial; intros; apply moves_ret.
Qed.

Lemma moves_run (readonly : bool) (fn : Prog error) :
  (forall st, moves st fn st) -> moves None (run readonly fn) None.
Proof.
  intros Hfn. unfold run; cbn.
  apply moves_other; trivial; intros nl.
  destruct (nl && negb readonly).
  - apply (moves_lock Exclusive); intros _.
    apply (moves_bind _ (Some Exclusive)); [apply Hfn | intros err].
    apply (moves_unlock Exclusive); intros _; apply moves_ret.
  - apply (moves_lock Shared); intros _.
    apply (moves_bind _ (Some Shared)); [apply Hfn | intros err].
    apply (moves_unlock Shared); intros _; apply moves_ret.
Qed.

Lemma moves_setMapSize (size delay : Z) :
  moves None (setMapSize (TxnOp := TxnOp) size delay) None.
Proof.
  unfold setMapSize; cbn.
  apply (moves_lock Exclusive); intros _.
  destruct (0 <? delay); cbn;
    repeat (apply moves_other; trivial; intros ?);
    apply (moves_unlock Exclusive); intros _; apply moves_ret.
Qed.

(** [SetMapSize] goes on whatever comes after it: its second [Lock] is asked
    for while holding the lock. *)
Lemma moves_SetMapSize (size : Z) (K : error -> Prog error) (st' : stance) :
  moves None (bind (SetMapSize size) K) st' /\
  moves (Some Exclusive) (bind (SetMapSize_locked size) K) st'.
Proof.
  split; [apply (moves_lock Exclusive); intros _ | ]; apply moves_relock.
Qed.

Lemma moves_chain (c : HandlerChain TxnOp) :
  Forall (fun h => forall b err, moves None (HandleTxnErr h b err) None) c ->
  forall b err, moves None (chain_HandleTxnErr c b err) None.
Proof.
  induction 1 as [ | h c Hh _ IH]; intros b err; cbn [chain_HandleTxnErr].
  - apply moves_ret.
  - apply (moves_bind _ None); auto.
Qed.

Lemma moves_loop (fuel : nat) (readonly : bool) (fn : Prog error)
    (h : Handler TxnOp) :
  (forall st, moves st fn st) ->
  (forall b err, moves None (HandleTxnErr h b err) None) ->
  forall b, moves None (runHandler_loop fuel readonly fn h b) None.
Proof.
  intros Hfn Hh; induction fuel as [ | fuel IH]; intros b;
    cbn [runHandler_loop].
  - apply moves_spent.
  - apply (moves_bind _ None); [now apply moves_run | intros err].
    apply (moves_bind _ None); [apply Hh | intros x].
    destruct (negb (is_RetryTxn (snd x))); [apply moves_ret | apply IH].
Qed.

(** An operation of a wrapper whose handlers keep to the protocol keeps to
    it, and so does the baseline handler. *)
Lemma moves_invoke (k : txn_method) (fuel : nat) (r : Env TxnOp) (op : TxnOp) :
  Forall (fun h => forall b err, moves None (HandleTxnErr h b err) None)
         (Handlers r) ->
  moves None (invoke k fuel r op) None.
Proof.
  intros Hh. rewrite invoke_loop.
  apply moves_loop; [apply moves_closure | apply (moves_chain _ Hh)].
Qed.

Lemma moves_MapResizedHandler (size delay : Z) (b : Bag) (err : error) :
  moves None (HandleTxnErr (MapResizedHandler (TxnOp := TxnOp) size delay) b err)
        None.
Proof.
  destruct err; cbn [HandleTxnErr MapResizedHandler]; try apply moves_ret.
  apply (moves_bind _ None);
    [apply moves_setMapSize | intros; apply moves_ret].
Qed.

(** ** Locked sections exclude one another *)

Lemma Resp_any (c : Call TxnOp) : Resp c.
Proof. destruct c; cbn; solve [exact tt | exact true | exact nilErr]. Qed.

(** A goroutine that keeps to the protocol and is inside a section locked
    in mode [m] holds the lock in mode [m]. *)
Lemma inside_stance (m : mode) (c : Call TxnOp) (p : Prog error) (st : stance) :
  inside m c p -> moves st p None -> st = Some m.
Proof.
  intros (Hc & k & ->) Hm. apply moves_inv in Hm.
  destruct Hm as [(_ & Hk) | [(m' & -> & _) | [(m' & -> & _)
                 | [(-> & _) | (-> & _)]]]];
    try (destruct m'; discriminate Hc); try discriminate Hc.
  specialize (Hk (Resp_any c)). apply moves_inv in Hk.
  destruct Hk as [(Hu & _) | [(m' & Hu & _) | [(m' & Hu & -> & _)
                 | [(Hu & _) | (Hu & _)]]]];
    destruct m; try destruct m'; try discriminate Hu; reflexivity.
Qed.

(** Along every interleaving of goroutines that keep to the protocol, two
    goroutines are inside locked sections at the same time only if both
    sections are shared ones: a section locked exclusively, such as the
    resize inside [setMapSize] or a write attempt in lock-disabled mode,
    overlaps no other. *)
Theorem locked_sections_exclude (sts : list stance) (ps ps' : pool)
    (s s' : EnvState) (i j : nat) (mi mj : mode) (ci cj : Call TxnOp)
    (pi pj : Prog error) :
  orderly sts ps -> agrees sts (txnlock s) ->
  steps (ps, s) (ps', s') ->
  i <> j ->
  nth_error ps' i = Some pi -> nth_error ps' j = Some pj ->
  inside mi ci pi -> inside mj cj pj ->
  mi = Shared /\ mj = Shared.
Proof.
  intros Ho Ha Hs Hij Hi Hj Hpi Hpj.
  destruct (steps_keep_order _ _ Hs sts Ho Ha) as (sts' & Ho' & Ha').
  cbn in Ho', Ha'.
  destruct (Forall2_nth_error_r _ _ _ Ho' _ _ Hi) as (sti & Hsi & Hmi).
  destruct (Forall2_nth_error_r _ _ _ Ho' _ _ Hj) as (stj & Hsj & Hmj).
  rewrite (inside_stance _ _ _ _ Hpi Hmi) in Hsi.
  rewrite (inside_stance _ _ _ _ Hpj Hmj) in Hsj.
  pose proof (holders_two Exclusive _ _ _ _ _ Hij Hsi Hsj) as HE.
  pose proof (holders_two Shared _ _ _ _ _ Hij Hsi Hsj) as HS.
  destruct Ha' as [(_ & _ & He & Hsh) | (_ & _ & He)];
    destruct mi, mj; cbn in HE, HS; auto; exfalso; lia.
Qed.

(** An attempt, once it has read the flag and got the lock, is inside a
    section locked in the mode of the admission rule, about to execute the
    engine body. *)
Lemma run_enters_section (k : txn_method) (op : TxnOp) (readonly : bool)
    (K : error -> Prog error) (s s1 s2 : EnvState) (p1 p2 : Prog error) :
  advance (bind (run readonly (closure k op)) K) s = Some (p1, s1) ->
  advance p1 s1 = Some (p2, s2) ->
  inside (admission_mode (noLock s) readonly) (engine_body k op) p2.
Proof.
  unfold run; cbn. intros [= <- <-].
  destruct (noLock s), readonly; cbn;
    match goal with
    | |- context [lock_call ?m ?s] => destruct (lock_call m s)
    end; try discriminate; intros [= <- _];
    (split; [now destruct k | destruct k; eexists; reflexivity]).
Qed.

(** [setMapSize], once it has got the lock, is inside a section locked
    exclusively, about to call the engine's resize. *)
Lemma setMapSize_enters_section (size : Z) (K : error -> Prog error)
    (s s1 : EnvState) (p1 : Prog error) :
  advance (bind (setMapSize size 0) K) s = Some (p1, s1) ->
  inside Exclusive (Env_SetMapSize size) p1.
Proof.
  unfold setMapSize; cbn.
  destruct (lock_call Exclusive s); try discriminate. intros [= <- _].
  split; [reflexivity | eexists; reflexivity].
Qed.

(** Resize exclusivity for the internal path: along every interleaving of
    goroutines that keep to the protocol, no goroutine is inside the resize
    section of [setMapSize] while another is inside the locked section of a
    transaction attempt. *)
Corollary resize_excludes_transactions (sts : list stance) (ps ps' : pool)
    (s s' : EnvState) (i j : nat) (size : Z) (m : mode) (k : txn_method)
    (op : TxnOp) (pi pj : Prog error) :
  orderly sts ps -> agrees sts (txnlock s) ->
  steps (ps, s) (ps', s') ->
  i <> j ->
  nth_error ps' i = Some pi -> nth_error ps' j = Some pj ->
  inside Exclusive (Env_SetMapSize size) pi ->
  inside m (engine_body k op) pj ->
  False.
Proof.
  intros Ho Ha Hs Hij Hi Hj Hpi Hpj.
  destruct (locked_sections_exclude _ _ _ _ _ _ _ _ _ _ _ _ _
              Ho Ha Hs Hij Hi Hj Hpi Hpj) as [H _].
  discriminate H.
Qed.

(** ** [SetMapSize] among other goroutines *)

Lemma SetMapSize_stays_parked (g : nat) (size : Z) (K : error -> Prog error)
    (cfg cfg' : pool * EnvState) :
  steps cfg cfg' ->
  forall sts,
  orderly sts (fst cfg) -> agrees sts (txnlock (snd cfg)) ->
  nth_error (fst cfg) g = Some (bind (SetMapSize size) K) \/
  (nth_error (fst cfg) g = Some (bind (SetMapSize_locked size) K) /\
   nth_error sts g = Some (Some Exclusive)) ->
  nth_error (fst cfg') g = Some (bind (SetMapSize size) K) \/
  nth_error (fst cfg') g = Some (bind (SetMapSize_locked size) K).
Proof.
  induction 1 as [cfg | cfg cfg1 cfg2 H1 _ IH]; intros sts Ho Ha Hg.
  { destruct Hg as [Hg | [Hg _]]; auto. }
  destruct H1 as [ps s i p p' s1 Hn Hp]. cbn [fst snd] in *.
  destruct (Forall2_nth_error_r _ _ _ Ho _ _ Hn) as (st & Hst & Hm).
  destruct (advance_keeps_order _ _ _ _ _ _ _ Ha Hst Hm Hp)
    as (st' & Hm' & Ha' & Hlock).
  assert (Ho' : orderly (replace_nth i st' sts) (replace_nth i p' ps))
    by (apply Forall2_replace_nth; auto).
  apply (IH _ Ho' Ha').
  destruct (Nat.eq_dec i g) as [-> | Hne].
  - right.
    assert (Hasks : asks_Lock p = true)
      by (destruct Hg as [Hg | [Hg _]]; rewrite Hg in Hn;
          injection Hn as <-; reflexivity).
    destruct (Hlock Hasks) as [-> ->].
    destruct Hg as [Hg | [_ Hg]]; [ | congruence].
    rewrite Hg in Hn; injection Hn as <-.
    cbn in Hp. destruct (lock_call Exclusive s) as [x s2 | | ];
      try discriminate.
    injection Hp as <- _.
    split; eapply nth_error_replace_nth_same; eauto.
  - rewrite !(nth_error_replace_nth_other _ _ _ _ Hne). exact Hg.
Qed.

(** [SetMapSize] among other goroutines: put a goroutine that calls it
    (and then goes on with [K]) among goroutines that keep to the lock
    protocol.  However the goroutines are interleaved, that goroutine is
    either still before its first [Lock] or parked before the [Lock] of
    [setMapSize]: it never calls the engine's resize and never reaches
    [K]. *)
Theorem SetMapSize_never_gets_through (g : nat) (size : Z)
    (K : error -> Prog error) (sts : list stance) (ps ps' : pool)
    (s s' : EnvState) :
  orderly sts ps -> agrees sts (txnlock s) ->
  nth_error ps g = Some (bind (SetMapSize size) K) ->
  steps (ps, s) (ps', s') ->
  nth_error ps' g = Some (bind (SetMapSize size) K) \/
  nth_error ps' g = Some (bind (SetMapSize_locked size) K).
Proof.
  intros Ho Ha Hg Hs.
  exact (SetMapSize_stays_parked g size K _ _ Hs sts Ho Ha (or_introl Hg)).
Qed.

(** What one goroutine alone does step by step is what [exec] says. *)
Lemma exec_steps (p : Prog error) :
  forall (s s' : EnvState) (a : error),
  exec p s = Returns a s' -> steps ([p], s) ([Ret a], s').
Proof.
  induction p as [a0 | c k IH | ]; intros s s' a; cbn; try discriminate.
  - intros [= <- <-]; apply steps_refl.
  - destruct (perform c s) as [x s1 | | ] eqn:Hc; try discriminate.
    intros Hx. eapply steps_step; [ | exact (IH _ _ _ _ Hx)].
    apply (step_goroutine [Do c k] s 0 (Do c k) (k x) s1); cbn; trivial.
    now rewrite Hc.
Qed.

End Interleavings.

(** * Concrete runs

    The statements above at concrete wrappers over the engine [Scripted]. *)

Module Runs.
Import Scripted.

#[local] Abbreviation exec := (exec (E := engine)).
#[local] Abbreviation calls := (calls (E := engine)).

(** [SetMapSize] on a fresh wrapper that nobody else uses, resized to
    1 MiB.  The call parks with the lock held by itself and the engine's map
    size untouched, where [setMapSize] from the same state returns with the
    new size adopted. *)
Example SetMapSize_parks_example :
  exec (SetMapSize 1048576) (idle fresh false) =
    Blocks txnlock_Lock
      (mkEnvState fresh false (mkRWMutex true 0)) /\
  exec (setMapSize 1048576 0) (idle fresh false) =
    Returns nilErr
      (mkEnvState (mkWorld 0 false 1048576 0 nilErr) false unlocked).
Proof. split; reflexivity. Qed.

(** An update in lock-disabled mode with the lock free holds the lock
    exclusively around the engine body; a view that finds a writer inside
    waits in [RLock]. *)
Lemma attempts_follow_admission_rule_witness :
  (held Exclusive (mkRWMutex true 0) /\
   calls (run false (closure mUpdate (failing MapFull))) (idle fresh true) =
     [noLock_get; txnlock_Lock; Env_Update (failing MapFull); txnlock_Unlock]) /\
  exec (run true (closure mView (failing nilErr)))
       (mkEnvState fresh true (mkRWMutex true 0)) =
    Blocks txnlock_RLock (mkEnvState fresh true (mkRWMutex true 0)).
Proof.
  split.
  - pose proof (attempts_follow_admission_rule (E := engine) mUpdate baseline
                  (failing MapFull) 0 (chainHandler []) Background
                  (idle fresh true)) as H.
    cbv zeta in H. destruct H as (_ & _ & H & _).
    destruct (H (mkRWMutex true 0) eq_refl) as (Hh & err & s1 & _ & _ & Hc).
    split; [exact Hh | exact Hc].
  - pose proof (attempts_follow_admission_rule (E := engine) mView baseline
                  (failing nilErr) 0 (chainHandler []) Background
                  (mkEnvState fresh true (mkRWMutex true 0))) as H.
    cbv zeta in H. destruct H as (_ & _ & _ & H).
    exact (proj1 (H eq_refl)).
Defined.

(** An update whose body reports the resize race once settles at its second
    attempt; an update whose body reports [MapFull] returns [MapFull]. *)
Lemma operation_returns_first_settled_output_witness :
  (exists n, (n <= 3)%nat /\
     settles (E := engine) false (closure mUpdate (resized_until 2))
       (chainHandler (Handlers baseline)) n
       (bagWithEnv Background (Some 1%nat)) (idle fresh false)
       nilErr (idle (mkWorld 0 false 0 2 nilErr) false)) /\
  exec (invoke mUpdate 1 baseline (failing MapFull)) (idle fresh true) =
    Returns MapFull (idle (mkWorld 0 false 0 1 nilErr) true).
Proof.
  split.
  - apply (proj1 (operation_returns_first_settled_output (E := engine) mUpdate
                    baseline (resized_until 2) 3 (idle fresh false)
                    (idle (mkWorld 0 false 0 2 nilErr) false) nilErr)).
    reflexivity.
  - apply (proj2 (operation_returns_first_settled_output (E := engine) mUpdate
                    baseline (failing MapFull) 1 (idle fresh true)
                    (idle (mkWorld 0 false 0 1 nilErr) true) MapFull)).
    exists 1%nat; split; [lia | ].
    eapply settles_done; [reflexivity | discriminate].
Defined.

(** A body that reports the resize race twice and then succeeds: [Update]
    returns nil after three invocations. *)
Lemma Update_retries_until_success_witness :
  exists s',
    exec (Update 3 baseline (resized_until 3)) (idle fresh false) =
      Returns nilErr s' /\
    w_invoked (lmdbEnv s') = 3%nat.
Proof.
  apply (Update_retries_until_success (E := engine) baseline (resized_until 3)
           3 w_invoked).
  - intros w; reflexivity.
  - intros w Hw; cbn; unfold resized_until.
    destruct (Nat.ltb_spec (S (w_invoked w)) 3); [reflexivity | lia].
  - intros w Hw; cbn; unfold resized_until.
    destruct (Nat.ltb_spec (S (w_invoked w)) 3); [lia | reflexivity].
  - intros b [w nl l]; cbn; intros ->.
    eexists; eexists; split; [reflexivity | split; reflexivity].
  - intros b [w nl l]; cbn; intros ->.
    eexists; eexists; split; reflexivity.
  - lia.
  - reflexivity.
  - reflexivity.
  - lia.
Defined.

(** [Open] on an empty path fails and leaves [noLock] alone, [Open] with
    the [NoLock] bit succeeds and sets it; likewise [SetFlags], and
    [UnsetFlags] which clears it. *)
Lemma flag_proxies_update_noLock_on_success_only_witness :
  exec (Open EmptyString NoLock 420) (idle fresh false) =
    Returns (ErrnoSys 2) (idle fresh false) /\
  exec (Open "db" NoLock 420) (idle fresh false) =
    Returns nilErr (idle (mkWorld NoLock true 0 0 nilErr) true) /\
  exec (SetFlags (-1)) (idle fresh false) =
    Returns (ErrnoSys EINVAL) (idle fresh false) /\
  exec (SetFlags NoLock) (idle fresh false) =
    Returns nilErr (idle (mkWorld NoLock false 0 0 nilErr) true) /\
  exec (UnsetFlags (-1)) (idle fresh true) =
    Returns (ErrnoSys EINVAL) (idle fresh true) /\
  exec (UnsetFlags NoLock) (idle (mkWorld NoLock true 0 0 nilErr) true) =
    Returns nilErr (idle (mkWorld 0 true 0 0 nilErr) false).
Proof.
  pose proof (flag_proxies_update_noLock_on_success_only (E := engine)
                EmptyString NoLock 420 (idle fresh false)) as H1.
  pose proof (flag_proxies_update_noLock_on_success_only (E := engine)
                "db" NoLock 420 (idle fresh false)) as H2.
  pose proof (flag_proxies_update_noLock_on_success_only (E := engine)
                "db" (-1) 420 (idle fresh false)) as H3.
  pose proof (flag_proxies_update_noLock_on_success_only (E := engine)
                "db" (-1) 420 (idle fresh true)) as H4.
  pose proof (flag_proxies_update_noLock_on_success_only (E := engine)
                "db" NoLock 420 (idle (mkWorld NoLock true 0 0 nilErr) true))
    as H5.
  cbv zeta in H1, H2, H3, H4, H5.
  destruct H1 as (H1 & _).
  destruct H2 as (_ & H2 & _ & H2' & _).
  destruct H3 as (_ & _ & H3 & _).
  destruct H4 as (_ & _ & _ & _ & H4 & _).
  destruct H5 as (_ & _ & _ & _ & _ & H5).
  split; [ | split; [ | split; [ | split; [ | split]]]].
  - apply H1; discriminate.
  - apply H2; reflexivity.
  - apply H3; discriminate.
  - apply H2'; reflexivity.
  - apply H4; discriminate.
  - apply H5; reflexivity.
Defined.

(** [SetFlags] and [UnsetFlags] with the [NoLock] bit on an idle wrapper,
    each followed by a transaction. *)
Lemma mode_follows_flag_change_witness :
  (exists rest,
     calls (Update 1 baseline (failing nilErr))
           (idle (mkWorld NoLock false 0 0 nilErr) true) =
       noLock_get :: txnlock_Lock :: rest) /\
  (exists rest,
     calls (View 1 baseline (failing nilErr))
           (idle (mkWorld 0 false 0 0 nilErr) false) =
       noLock_get :: txnlock_RLock :: rest).
Proof.
  split.
  - destruct (mode_follows_flag_change (E := engine) NoLock baseline
                (failing nilErr) 0 (idle fresh false)
                (idle (mkWorld NoLock false 0 0 nilErr) true) eq_refl)
      as [H _].
    destruct (H eq_refl) as (_ & Hc & _). exact Hc.
  - destruct (mode_follows_flag_change (E := engine) NoLock baseline
                (failing nilErr) 0 (idle (mkWorld NoLock false 0 0 nilErr) true)
                (idle (mkWorld 0 false 0 0 nilErr) false) eq_refl)
      as [_ H].
    destruct (H eq_refl) as (_ & Hc & _). exact Hc.
Defined.

(** [NewEnv] around an open handle with [NoLock] set, around a handle that
    is not open yet, and around a handle whose flags query fails with
    errno 13. *)
Lemma NewEnv_reads_engine_flags_witness :
  NewEnv (E := engine) 1 (Some (mkWorld NoLock true 0 0 nilErr)) [] =
    Built (mkEnv 1 [] Background)
          (mkEnvState (mkWorld NoLock true 0 0 nilErr) true unlocked) /\
  NewEnv (E := engine) 1 (Some fresh) [] =
    Built (mkEnv 1 [] Background) (mkEnvState fresh false unlocked) /\
  NewEnv (E := engine) 1 (Some (mkWorld 0 true 0 0 (ErrnoSys 13))) [] =
    Failed (ErrnoSys 13).
Proof.
  split; [ | split].
  - apply (proj1 (NewEnv_reads_engine_flags (E := engine) 1
                    (mkWorld NoLock true 0 0 nilErr) [])); reflexivity.
  - apply (proj1 (proj2 (NewEnv_reads_engine_flags (E := engine) 1 fresh [])));
      reflexivity.
  - apply (proj2 (proj2 (NewEnv_reads_engine_flags (E := engine) 1
                           (mkWorld 0 true 0 0 (ErrnoSys 13)) [])));
      [discriminate | reflexivity].
Defined.

(** The wrapper [NewEnv] builds at address 1 hands its chain the background
    bag tagged with address 1. *)
Lemma BagEnv_finds_tagged_wrapper_witness :
  bagWithEnv (bag baseline) (Some (self baseline)) =
    BagWith Background (envBagKey 0) (VEnv (Some 1%nat)).
Proof.
  apply (proj2 (proj2 (proj2
           (BagEnv_finds_tagged_wrapper (E := engine) Background None mView
              baseline (failing nilErr) 0)))
           1%nat None [MapResizedHandler 0 0] (idle fresh false)).
  reflexivity.
Defined.

(** The background bag binds no wrapper; a bag that binds the private key
    to an integer binds no wrapper either. *)
Lemma BagEnv_nil_without_wrapper_witness :
  BagEnv Background = None /\
  BagEnv (BagWith Background (envBagKey 0) (VInt 5)) = None.
Proof.
  split.
  - apply (proj1 (BagEnv_nil_without_wrapper Background)); reflexivity.
  - apply (proj2 (BagEnv_nil_without_wrapper
                    (BagWith Background (envBagKey 0) (VInt 5))) (VInt 5));
      [reflexivity | discriminate].
Defined.

(** Two goroutines on an idle wrapper, one calling [SetMapSize], the other
    [Update]. *)
Lemma resizer_and_updater_orderly :
  orderly [None; None]
    [bind (SetMapSize 1048576) Ret; Update 1 baseline (failing nilErr)] /\
  agrees [None; None] (txnlock (idle fresh false)).
Proof.
  split.
  - constructor; [apply moves_SetMapSize | ].
    constructor; [ | constructor].
    apply (moves_invoke mUpdate 1 baseline (failing nilErr)).
    repeat constructor.
    apply moves_MapResizedHandler.
  - right; cbn; auto.
Qed.

(** However the two are interleaved, the first never gets past the [Lock]
    inside [setMapSize]. *)
Lemma SetMapSize_never_gets_through_witness (ps' : pool) (s' : EnvState world) :
  steps (E := engine)
    ([bind (SetMapSize 1048576) Ret; Update 1 baseline (failing nilErr)],
     idle fresh false) (ps', s') ->
  nth_error ps' 0 = Some (bind (SetMapSize 1048576) Ret) \/
  nth_error ps' 0 = Some (bind (SetMapSize_locked 1048576) Ret).
Proof.
  destruct resizer_and_updater_orderly as [Ho Ha].
  apply (SetMapSize_never_gets_through (E := engine) 0 1048576 Ret _ _ _ _ _
           Ho Ha eq_refl).
Defined.

(** One way it goes: the first goroutine takes the lock, the second reads
    the flag, and then neither can take another step, the first parked in
    [Lock] with the map size unchanged, the second parked in [RLock]. *)
Example SetMapSize_deadlocks_the_pool :
  exists (ps' : pool) (s' : EnvState world),
    steps (E := engine)
      ([bind (SetMapSize 1048576) Ret; Update 1 baseline (failing nilErr)],
       idle fresh false) (ps', s') /\
    nth_error ps' 0 = Some (bind (SetMapSize_locked 1048576) Ret) /\
    w_mapsize (lmdbEnv s') = 0 /\
    List.length ps' = 2%nat /\
    forall i p, nth_error ps' i = Some p ->
      advance (E := engine) p s' = None /\
      (asks_Lock p = true \/ exists k, p = Do txnlock_RLock k).
Proof.
  eexists; eexists; split.
  - eapply steps_step.
    { eapply (step_goroutine _ _ 0); reflexivity. }
    eapply steps_step.
    { eapply (step_goroutine _ _ 1); reflexivity. }
    apply steps_refl.
  - cbn. repeat (split; [reflexivity | ]).
    intros [ | [ | i]] p; cbn.
    + intros [= <-]; split; [reflexivity | left; reflexivity].
    + intros [= <-]; split; [reflexivity | right; eexists; reflexivity].
    + destruct i; discriminate.
Qed.

(** Two views on an idle wrapper can both be inside their (shared) locked
    sections at once. *)
Example views_share_the_lock :
  exists (ps' : pool) (s' : EnvState world) (p0 p1 : Prog TxnOp error),
    steps (E := engine)
      ([View 1 baseline (failing nilErr); View 1 baseline (failing nilErr)],
       idle fresh true) (ps', s') /\
    nth_error ps' 0 = Some p0 /\ nth_error ps' 1 = Some p1 /\
    inside Shared (Env_View (failing nilErr)) p0 /\
    inside Shared (Env_View (failing nilErr)) p1 /\
    txnlock s' = mkRWMutex false 2.
Proof.
  do 4 eexists; split.
  - eapply steps_step.
    { eapply (step_goroutine _ _ 0); reflexivity. }
    eapply steps_step.
    { eapply (step_goroutine _ _ 0); reflexivity. }
    eapply steps_step.
    { eapply (step_goroutine _ _ 1); reflexivity. }
    eapply steps_step.
    { eapply (step_goroutine _ _ 1); reflexivity. }
    apply steps_refl.
  - cbn. split; [reflexivity | split; [reflexivity | ]].
    split; [ | split]; [ | | reflexivity];
      (split; [reflexivity | eexists; reflexivity]).
Qed.

End Runs.

(** * Goroutines that call the wrapper *)

Section Callers.
Context {W TxnOp : Type} {E : Engine W TxnOp}.

#[local] Abbreviation Prog := (Prog TxnOp).
#[local] Abbreviation EnvState := (EnvState W).

(** ** The methods keep to the lock protocol *)

Lemma keeps_moves {A : Type} (st st' : stance) (p : Prog A) :
  keeps st p st' -> moves st p st'.
Proof.
  induction 1;
    solve [ constructor; auto | apply moves_lock; auto | apply moves_unlock; auto ].
Qed.

Lemma keeps_inv {A : Type} (st st' : stance) (p : Prog A) :
  keeps st p st' ->
  match p with
  | Ret _ => st = st'
  | Spent => st = None
  | Do c k =>
      (is_lock_call c = false /\ forall x, keeps st (k x) st') \/
      (exists m, c = lock_of m /\ st = None /\
                 forall x, keeps (Some m) (k x) st') \/
      (exists m, c = unlock_of m /\ st = Some m /\
                 forall x, keeps None (k x) st')
  end.
Proof.
  destruct 1; trivial.
  - right; left; eauto.
  - right; right; eauto.
  - left; auto.
Qed.

Lemma keeps_bind {A B : Type} (st st1 st2 : stance) (p : Prog A)
    (f : A -> Prog B) :
  keeps st p st1 -> (forall a, keeps st1 (f a) st2) ->
  keeps st (bind p f) st2.
Proof.
  intros Hp Hf; induction Hp; cbn; auto;
    solve [ constructor; auto
          | apply keeps_lock; auto
          | apply keeps_unlock; auto ].
Qed.

Lemma keeps_call (c : Call TxnOp) (st : stance) :
  is_lock_call c = false -> keeps st (call c) st.
Proof. intros Hc; apply keeps_other; trivial; intros; apply keeps_ret. Qed.

Lemma keeps_closure (k : txn_method) (op : TxnOp) (st : stance) :
  keeps st (closure k op) st.
Proof.
  destruct k; apply keeps_other; trivial; intros; apply keeps_ret.
Qed.

Lemma keeps_run (readonly : bool) (fn : Prog error) :
  (forall st, keeps st fn st) -> keeps None (run readonly fn) None.
Proof.
  intros Hfn. unfold run; cbn.
  apply keeps_other; trivial; intros nl.
  destruct (nl && negb readonly).
  - apply (keeps_lock Exclusive); intros _.
    apply (keeps_bind _ (Some Exclusive)); [apply Hfn | intros err].
    apply (keeps_unlock Exclusive); intros _; apply keeps_ret.
  - apply (keeps_lock Shared); intros _.
    apply (keeps_bind _ (Some Shared)); [apply Hfn | intros err].
    apply (keeps_unlock Shared); intros _; apply keeps_ret.
Qed.

Lemma keeps_setMapSize (size delay : Z) :
  keeps None (setMapSize (TxnOp := TxnOp) size delay) None.
Proof.
  unfold setMapSize; cbn.
  apply (keeps_lock Exclusive); intros _.
  destruct (0 <? delay); cbn;
    repeat (apply keeps_other; trivial; intros ?);
    apply (keeps_unlock Exclusive); intros _; apply keeps_ret.
Qed.

Lemma keeps_flag_proxies (path : string) (flags fmode : Z) (st : stance) :
  keeps st (Open (TxnOp := TxnOp) path flags fmode) st /\
  keeps st (SetFlags (TxnOp := TxnOp) flags) st /\
  keeps st (UnsetFlags (TxnOp := TxnOp) flags) st.
Proof.
  unfold Open, SetFlags, UnsetFlags; cbn.
  repeat split; apply keeps_other; trivial; intros err;
    destruct (negb (is_nil err)); try apply keeps_ret;
    destruct (has_flag flags NoLock); cbn;
    repeat (apply keeps_other; trivial; intros ?); apply keeps_ret.
Qed.

Lemma keeps_chain (c : HandlerChain TxnOp) :
  Forall orderly_handler c ->
  forall b err, keeps None (chain_HandleTxnErr c b err) None.
Proof.
  induction 1 as [ | h c Hh _ IH]; intros b err; cbn [chain_HandleTxnErr].
  - apply keeps_ret.
  - apply (keeps_bind _ None); auto.
Qed.

Lemma keeps_loop (fuel : nat) (readonly : bool) (fn : Prog error)
    (h : Handler TxnOp) :
  (forall st, keeps st fn st) -> orderly_handler h ->
  forall b, keeps None (runHandler_loop fuel readonly fn h b) None.
Proof.
  intros Hfn Hh; induction fuel as [ | fuel IH]; intros b;
    cbn [runHandler_loop].
  - apply keeps_spent.
  - apply (keeps_bind _ None); [now apply keeps_run | intros err].
    apply (keeps_bind _ None); [apply Hh | intros x].
    destruct (negb (is_RetryTxn (snd x))); [apply keeps_ret | apply IH].
Qed.

(** The baseline handler is orderly. *)
Lemma orderly_MapResizedHandler (size delay : Z) :
  orderly_handler (MapResizedHandler (TxnOp := TxnOp) size delay).
Proof.
  intros b err.
  destruct err; cbn [HandleTxnErr MapResizedHandler]; try apply keeps_ret.
  apply (keeps_bind _ None);
    [apply keeps_setMapSize | intros; apply keeps_ret].
Qed.

(** Whatever a goroutine that uses the wrapper runs, it starts and ends
    holding nothing and keeps to the protocol in between. *)
Lemma wrapper_call_keeps (p : Prog error) :
  wrapper_call p -> keeps None p None.
Proof.
  induction 1 as [k fuel r op Hh | | path flags fmode | flags | flags
                 | p f _ IHp _ IHf | ].
  - rewrite invoke_loop.
    apply keeps_loop; [apply keeps_closure | exact (keeps_chain _ Hh)].
  - apply keeps_setMapSize.
  - apply (keeps_flag_proxies path flags fmode None).
  - apply (keeps_flag_proxies EmptyString flags 0 None).
  - apply (keeps_flag_proxies EmptyString flags 0 None).
  - apply (keeps_bind _ None); auto.
  - apply keeps_ret.
Qed.

(** ** The protocol is kept along every interleaving *)

Ltac agreement Ha :=
  unfold agrees, stance in *; cbn in Ha |- *;
  destruct Ha as [(Hw & Hr & He & Hsh) | (Hw & Hr & He)];
  try discriminate;
  solve [ left; split; [reflexivity | split; [lia | split; lia]]
        | right; split; [reflexivity | split; lia]
        | left; split; [assumption | split; [lia | split; lia]]
        | right; split; [assumption | split; lia]
        | exfalso; lia ].

Lemma holders_nobody (m : mode) (n : nat) : holders m (nobody n) = 0%nat.
Proof.
  unfold nobody; induction n as [ | n IH]; cbn; destruct m; cbn in *; auto.
Qed.

Lemma agrees_nobody (n : nat) : agrees (nobody n) unlocked.
Proof. right; cbn; rewrite !holders_nobody; auto. Qed.

Lemma callers_hold_nothing (ps : list (Prog error)) :
  Forall wrapper_call ps ->
  Forall2 (fun st p => keeps st p None) (nobody (List.length ps)) ps.
Proof.
  induction 1 as [ | p ps Hp _ IH]; cbn; constructor; trivial.
  now apply wrapper_call_keeps.
Qed.

Lemma Forall2_nth_error_l {A B : Type} (R : A -> B -> Prop) (xs : list A)
    (ys : list B) :
  Forall2 R xs ys ->
  forall i x, nth_error xs i = Some x ->
  exists y, nth_error ys i = Some y /\ R x y.
Proof.
  induction 1 as [ | x y xs ys Hxy _ IH]; intros [ | i] x0; cbn;
    try discriminate.
  - intros [= <-]; eauto.
  - apply IH.
Qed.

Lemma advance_keeps (sts : list stance) (i : nat) (st : stance)
    (p p' : Prog error) (s s' : EnvState) :
  agrees sts (txnlock s) ->
  nth_error sts i = Some st ->
  keeps st p None ->
  advance p s = Some (p', s') ->
  exists st',
    keeps st' p' None /\ agrees (replace_nth i st' sts) (txnlock s').
Proof.
  intros Ha Hst Hm Hp.
  destruct p as [a | c k | ]; try discriminate. cbn in Hp.
  destruct (perform c s) as [x s1 | | ] eqn:Hc; try discriminate.
  injection Hp as <- <-.
  apply keeps_inv in Hm.
  pose proof (holders_replace Exclusive sts i st) as HE.
  pose proof (holders_replace Shared sts i st) as HS.
  destruct Hm as [(Hl & Hk) | [(m & -> & -> & Hk) | (m & -> & -> & Hk)]].
  - exists st. split; [apply Hk | ].
    rewrite (perform_other _ _ _ _ Hl Hc).
    specialize (HE st Hst); specialize (HS st Hst).
    agreement Ha.
  - apply perform_lock_of in Hc as (l & Hacq & ->).
    exists (Some m). split; [apply Hk | ].
    specialize (HE (Some m) Hst); specialize (HS (Some m) Hst).
    cbn [txnlock with_txnlock].
    destruct (txnlock s) as [w n]; destruct m, w, n; cbn in Hacq;
      try discriminate; injection Hacq as <-; cbn in HE, HS;
      agreement Ha.
  - apply perform_unlock_of in Hc as (l & Hrel & ->).
    exists None. split; [apply Hk | ].
    specialize (HE None Hst); specialize (HS None Hst).
    cbn [txnlock with_txnlock].
    destruct (txnlock s) as [w n]; destruct m, w, n; cbn in Hrel;
      try discriminate; injection Hrel as <-; cbn in HE, HS;
      agreement Ha.
Qed.

Lemma steps_keep (cfg cfg' : pool * EnvState) :
  steps cfg cfg' ->
  forall sts,
  Forall2 (fun st p => keeps st p None) sts (fst cfg) ->
  agrees sts (txnlock (snd cfg)) ->
  exists sts',
    Forall2 (fun st p => keeps st p None) sts' (fst cfg') /\
    agrees sts' (txnlock (snd cfg')).
Proof.
  induction 1 as [cfg | cfg cfg1 cfg2 H1 _ IH]; intros sts Ho Ha; eauto.
  destruct H1 as [ps s i p p' s1 Hn Hp]. cbn [fst snd] in *.
  destruct (Forall2_nth_error_r _ _ _ Ho _ _ Hn) as (st & Hst & Hm).
  destruct (advance_keeps _ _ _ _ _ _ _ Ha Hst Hm Hp) as (st' & Hm' & Ha').
  apply (IH (replace_nth i st' sts)); trivial.
  apply Forall2_replace_nth; auto.
Qed.

(** Started with the lock free, goroutines that call the wrapper are, at
    every point of every interleaving, at places where each keeps to the
    protocol from what it holds, and the mutex agrees with what they
    hold. *)
Lemma callers_keep (ps ps' : list (Prog error)) (s s' : EnvState) :
  Forall wrapper_call ps -> txnlock s = unlocked ->
  steps (ps, s) (ps', s') ->
  exists sts',
    Forall2 (fun st p => keeps st p None) sts' ps' /\
    agrees sts' (txnlock s').
Proof.
  intros Hw Hl Hs.
  apply (steps_keep _ _ Hs (nobody (List.length ps)));
    cbn [fst snd]; [now apply callers_hold_nothing | ].
  rewrite Hl; apply agrees_nobody.
Qed.

(** ** What goroutines that call the wrapper can rely on *)

(** X1: goroutines that call the transaction operations, [setMapSize] and
    the flag proxies of one wrapper start with the lock free.  However they
    are interleaved, two of them are between taking and releasing the lock
    at the same time only if both hold it shared: the resize inside
    [setMapSize] and a write attempt in lock-disabled mode overlap
    nothing. *)
Theorem callers_sections_exclude (ps ps' : list (Prog error))
    (s s' : EnvState) (i j : nat) (mi mj : mode) (ci cj : Call TxnOp)
    (pi pj : Prog error) :
  Forall wrapper_call ps -> txnlock s = unlocked ->
  steps (ps, s) (ps', s') ->
  i <> j ->
  nth_error ps' i = Some pi -> nth_error ps' j = Some pj ->
  inside mi ci pi -> inside mj cj pj ->
  mi = Shared /\ mj = Shared.
Proof.
  intros Hw Hl Hs.
  apply (locked_sections_exclude (nobody (List.length ps)) ps ps' s s');
    trivial.
  - pose proof (callers_hold_nothing ps Hw) as H.
    unfold orderly. clear - H.
    induction H; constructor; auto using keeps_moves.
  - rewrite Hl; apply agrees_nobody.
Qed.

Lemma release_by_holder (sts : list stance) (l : RWMutex) (i : nat) (m : mode) :
  agrees sts l -> nth_error sts i = Some (Some m) ->
  exists l', release m l = Some l'.
Proof.
  intros Ha Hi. pose proof (holders_one m sts _ _ Hi) as H1.
  destruct l as [w n]; destruct m, w, n; cbn in H1 |- *; eauto;
    agreement Ha.
Qed.

Lemma acquire_when_free (sts : list stance) (l : RWMutex) (m : mode) :
  agrees sts l ->
  holders Exclusive sts = 0%nat -> holders Shared sts = 0%nat ->
  exists l', acquire m l = Some l'.
Proof.
  intros Ha HE HS.
  destruct l as [w n]; destruct m, w, n; cbn; eauto; agreement Ha.
Qed.

Lemma perform_other_proceeds (c : Call TxnOp) (s : EnvState) :
  is_lock_call c = false -> exists x s1, perform c s = Proceeds x s1.
Proof. destruct c; cbn; try discriminate; unfold engine_call; eauto. Qed.

Lemma perform_lock_proceeds (m : mode) (s : EnvState) (l : RWMutex) :
  acquire m (txnlock s) = Some l ->
  exists x, perform (lock_of m) s = Proceeds x (with_txnlock s l).
Proof.
  intros H; destruct m; cbn; unfold lock_call; rewrite H; eauto.
Qed.

Lemma perform_unlock_proceeds (m : mode) (s : EnvState) (l : RWMutex) :
  release m (txnlock s) = Some l ->
  exists x, perform (unlock_of m) s = Proceeds x (with_txnlock s l).
Proof.
  intros H; destruct m; cbn; unfold unlock_call; rewrite H; eauto.
Qed.

(** X2: however such goroutines are interleaved, none of them ever makes
    the runtime abort: an [Unlock] or [RUnlock] is only called by a
    goroutine that holds the lock in that mode. *)
Theorem callers_never_abort (ps ps' : list (Prog error)) (s s' : EnvState)
    (i : nat) (c : Call TxnOp) (k : Resp c -> Prog error) :
  Forall wrapper_call ps -> txnlock s = unlocked ->
  steps (ps, s) (ps', s') ->
  nth_error ps' i = Some (Do c k) ->
  perform c s' <> Throws.
Proof.
  intros Hw Hl Hs Hi.
  destruct (callers_keep _ _ _ _ Hw Hl Hs) as (sts & Ho & Ha).
  destruct (Forall2_nth_error_r _ _ _ Ho _ _ Hi) as (st & Hst & Hk).
  apply keeps_inv in Hk.
  destruct Hk as [(Hc & _) | [(m & -> & _) | (m & -> & -> & _)]].
  - destruct (perform_other_proceeds c s' Hc) as (x & s1 & ->); discriminate.
  - destruct m; cbn; unfold lock_call;
      match goal with |- context [acquire ?m ?l] => destruct (acquire m l) end;
      discriminate.
  - destruct (release_by_holder _ _ _ _ Ha Hst) as (l & Hr).
    destruct (perform_unlock_proceeds _ _ _ Hr) as (x & ->); discriminate.
Qed.

Lemma somebody_or_nobody (sts : list stance) :
  (exists j m, nth_error sts j = Some (Some m)) \/
  (holders Exclusive sts = 0%nat /\ holders Shared sts = 0%nat /\
   forall j st, nth_error sts j = Some st -> st = None).
Proof.
  induction sts as [ | [m | ] sts IH].
  - right; repeat split; trivial. intros [ | j] st; discriminate.
  - left; exists 0%nat, m; reflexivity.
  - destruct IH as [(j & m & H) | (HE & HS & Hn)].
    + left; exists (S j), m; exact H.
    + right; repeat split; trivial.
      intros [ | j] st; cbn; [now intros [= <-] | apply Hn].
Qed.

(** X3: such goroutines never deadlock, as long as every engine call
    returns, so that a transaction body neither panics nor calls a method
    of the wrapper itself: at every point of every interleaving, if some
    goroutine still has a call to make, be it one that parks, then some
    goroutine can take a step. *)
Theorem callers_never_deadlock (ps ps' : list (Prog error)) (s s' : EnvState)
    (i : nat) (c : Call TxnOp) (k : Resp c -> Prog error) :
  Forall wrapper_call ps -> txnlock s = unlocked ->
  steps (ps, s) (ps', s') ->
  nth_error ps' i = Some (Do c k) ->
  exists j p p1 s1, nth_error ps' j = Some p /\ advance p s' = Some (p1, s1).
Proof.
  intros Hw Hl Hs Hi.
  destruct (callers_keep _ _ _ _ Hw Hl Hs) as (sts & Ho & Ha).
  assert (Hgo : forall j (c0 : Call TxnOp) (k0 : Resp c0 -> Prog error) x s1,
            nth_error ps' j = Some (Do c0 k0) ->
            perform c0 s' = Proceeds x s1 ->
            exists j p p1 s1, nth_error ps' j = Some p /\
                              advance p s' = Some (p1, s1)).
  { intros j c0 k0 x s1 Hj Hp. exists j, (Do c0 k0), (k0 x), s1.
    split; trivial. cbn. now rewrite Hp. }
  destruct (somebody_or_nobody sts) as [(j & m & Hj) | (HE & HS & Hn)].
  - destruct (Forall2_nth_error_l _ _ _ Ho _ _ Hj) as (p & Hp & Hk).
    apply keeps_inv in Hk. destruct p as [a | c0 k0 | ]; try discriminate.
    destruct Hk as [(Hc & _) | [(m' & _ & Hx & _) | (m' & -> & [= <-] & _)]];
      try discriminate.
    + destruct (perform_other_proceeds c0 s' Hc) as (x & s1 & Hx). eauto.
    + destruct (release_by_holder _ _ _ _ Ha Hj) as (l & Hr).
      destruct (perform_unlock_proceeds _ _ _ Hr) as (x & Hx). eauto.
  - destruct (Forall2_nth_error_r _ _ _ Ho _ _ Hi) as (st & Hst & Hk).
    rewrite (Hn _ _ Hst) in Hk. apply keeps_inv in Hk.
    destruct Hk as [(Hc & _) | [(m & -> & _) | (m & _ & Hx & _)]];
      try discriminate.
    + destruct (perform_other_proceeds c s' Hc) as (x & s1 & Hx). eauto.
    + destruct (acquire_when_free _ _ m Ha HE HS) as (l & Hq).
      destruct (perform_lock_proceeds _ _ _ Hq) as (x & Hx). eauto.
Qed.

(** Right after its [Lock], [setMapSize] is at one of the two places of
    [in_setMapSize], and from the first it steps to the second. *)
Lemma setMapSize_after_Lock (size delay : Z) (K : error -> Prog error)
    (s s1 : EnvState) (p1 : Prog error) :
  advance (bind (setMapSize size delay) K) s = Some (p1, s1) ->
  in_setMapSize size delay p1.
Proof.
  unfold setMapSize; cbn.
  destruct (lock_call Exclusive s); try discriminate. intros [= <- _].
  destruct (0 <? delay) eqn:Hd; cbn.
  - apply (before_sleep size delay (fun err => bind (Ret err) K)). lia.
  - apply (before_resize size delay (fun err => bind (Ret err) K)).
Qed.

(** X11: while a goroutine is inside [setMapSize] with the lock, sleeping
    out the delay or about to resize, the lock is held by that one writer
    and every [Lock] or [RLock] another goroutine calls parks: no
    transaction attempt gets in before the resize is done. *)
Theorem setMapSize_holds_everyone_off (ps ps' : list (Prog error))
    (s s' : EnvState) (i : nat) (size delay : Z) (pi : Prog error) :
  Forall wrapper_call ps -> txnlock s = unlocked ->
  steps (ps, s) (ps', s') ->
  nth_error ps' i = Some pi ->
  in_setMapSize size delay pi ->
  txnlock s' = mkRWMutex true 0 /\
  forall j m (k : Resp (lock_of m) -> Prog error),
    nth_error ps' j = Some (Do (lock_of m) k) ->
    perform (lock_of m) s' = Parks.
Proof.
  intros Hw Hl Hs Hi Hin.
  destruct (callers_keep _ _ _ _ Hw Hl Hs) as (sts & Ho & Ha).
  destruct (Forall2_nth_error_r _ _ _ Ho _ _ Hi) as (st & Hst & Hk).
  assert (Hst' : st = Some Exclusive).
  { assert (Hu : forall (K : error -> Prog error) err,
              keeps st (Do txnlock_Unlock (fun _ => K err)) None ->
              st = Some Exclusive).
    { intros K err H. apply keeps_inv in H.
      destruct H as [(Hc & _) | [(m & Hm & _) | (m & Hm & -> & _)]];
        try discriminate; destruct m; try discriminate; reflexivity. }
    assert (Hr : forall (K : error -> Prog error),
              keeps st (Do (Env_SetMapSize size)
                          (fun err => Do txnlock_Unlock (fun _ => K err))) None ->
              st = Some Exclusive).
    { intros K H. apply keeps_inv in H.
      destruct H as [(_ & H) | [(m & Hm & _) | (m & Hm & _)]];
        try (destruct m; discriminate).
      exact (Hu K nilErr (H nilErr)). }
    destruct Hin as [K Hd | K]; [ | exact (Hr K Hk)].
    apply keeps_inv in Hk.
    destruct Hk as [(_ & H) | [(m & Hm & _) | (m & Hm & _)]];
      try (destruct m; discriminate).
    exact (Hr K (H tt)). }
  subst st. pose proof (holders_one Exclusive sts _ _ Hst) as H1.
  assert (Hlock : txnlock s' = mkRWMutex true 0).
  { destruct (txnlock s') as [w n]; cbn in H1.
    destruct Ha as [(Hw' & Hr' & _) | (_ & _ & He)]; cbn in *;
      [now subst | unfold stance in *; lia]. }
  split; [exact Hlock | ].
  intros j m k _. destruct m; cbn; unfold lock_call; now rewrite Hlock.
Qed.

End Callers.

(** * More on single calls *)

Section Calls.
Context {W TxnOp : Type} {E : Engine W TxnOp}.

#[local] Abbreviation Prog := (Prog TxnOp).
#[local] Abbreviation EnvState := (EnvState W).

(** X4: [setMapSize] takes the lock before anything else.  With the lock
    free it sleeps first when the delay is positive, calls the engine's
    resize once, releases the lock and returns the engine's result, having
    changed nothing but the engine; with the lock taken, by readers or by a
    writer, it waits in [Lock] without sleeping or resizing. *)
Theorem setMapSize_resizes_under_lock (size delay : Z) (s : EnvState) :
  (txnlock s = unlocked ->
     exec (setMapSize size delay) s =
       Returns (fst (lmdb_SetMapSize size (lmdbEnv s)))
               (with_lmdbEnv s (snd (lmdb_SetMapSize size (lmdbEnv s)))) /\
     calls (setMapSize size delay) s =
       txnlock_Lock ::
       (if 0 <? delay then [time_Sleep delay] else []) ++
       [Env_SetMapSize size; txnlock_Unlock]) /\
  (txnlock s <> unlocked ->
     exec (setMapSize size delay) s = Blocks txnlock_Lock s /\
     calls (setMapSize size delay) s = [txnlock_Lock]).
Proof.
  split.
  - apply setMapSize_resizes_once.
  - destruct s as [w nl [[ | ] [ | n]]]; cbn; intros H; now split.
Qed.

(** An attempt that returns has run the engine body once and has put the
    lock back as it was. *)
Lemma run_closure_returns (k : txn_method) (op : TxnOp) (readonly : bool)
    (s s1 : EnvState) (err : error) :
  exec (run readonly (closure k op)) s = Returns err s1 ->
  err = fst (engine_run k op (lmdbEnv s)) /\
  s1 = with_lmdbEnv s (snd (engine_run k op (lmdbEnv s))).
Proof.
  rewrite (proj1 (run_with_lock readonly (closure k op) s)).
  unfold with_lock.
  set (m := admission_mode (noLock s) readonly).
  assert (Hb : forall s0, exec (closure k op) s0 =
            Returns (fst (engine_run k op (lmdbEnv s0)))
                    (with_lmdbEnv s0 (snd (engine_run k op (lmdbEnv s0)))))
    by (intros s0; destruct k; reflexivity).
  destruct (acquire m (txnlock s)) as [l | ] eqn:Ha.
  - pose proof (release_acquire _ _ _ Ha) as Hr.
    destruct m; cbn [exec perform lock_of]; unfold lock_call; rewrite Ha;
      rewrite exec_bind, Hb; cbn [exec perform unlock_of];
      unfold unlock_call; cbn [txnlock with_lmdbEnv with_txnlock];
      rewrite Hr; intros [= <- <-]; destruct s; now split.
  - destruct m; cbn [exec perform lock_of]; unfold lock_call; rewrite Ha;
      discriminate.
Qed.

Lemma chain_keeps_lock (c : HandlerChain TxnOp) :
  Forall (fun h => forall b err (s s' : EnvState) x,
            exec (HandleTxnErr h b err) s = Returns x s' ->
            txnlock s' = txnlock s) c ->
  forall b err (s s' : EnvState) x,
  exec (chain_HandleTxnErr c b err) s = Returns x s' ->
  txnlock s' = txnlock s.
Proof.
  induction 1 as [ | h c Hh _ IH]; intros b err s s' x; cbn [chain_HandleTxnErr].
  - cbn; now intros [= _ <-].
  - rewrite exec_bind.
    destruct (exec (HandleTxnErr h b err) s) as [y s1 | | | ] eqn:H1;
      try discriminate.
    intros H2. rewrite (IH _ _ _ _ _ H2). eapply Hh; eauto.
Qed.

(** X5: an operation that returns leaves the admission lock as it found it,
    provided each handler of the chain does when it returns. *)
Theorem operation_puts_lock_back (k : txn_method) (fuel : nat) (r : Env TxnOp)
    (op : TxnOp) (s s' : EnvState) (err : error) :
  Forall (fun h => forall b e (s0 s1 : EnvState) x,
            exec (HandleTxnErr h b e) s0 = Returns x s1 ->
            txnlock s1 = txnlock s0) (Handlers r) ->
  exec (invoke k fuel r op) s = Returns err s' ->
  txnlock s' = txnlock s.
Proof.
  intros Hh. rewrite invoke_loop.
  generalize (bagWithEnv (bag r) (Some (self r))) as b. revert s.
  induction fuel as [ | fuel IH]; intros s b; [discriminate | ].
  rewrite exec_loop_step. unfold attempt. rewrite exec_bind.
  destruct (exec (run (declared_readonly k) (closure k op)) s)
    as [e1 s1 | | | ] eqn:H1; try discriminate.
  apply run_closure_returns in H1 as [_ ->].
  destruct (exec (HandleTxnErr (chainHandler (Handlers r)) b e1) _)
    as [[b2 e2] s2 | | | ] eqn:H2; try discriminate.
  apply (chain_keeps_lock _ Hh) in H2. cbn in H2. cbn [fst snd].
  destruct (is_RetryTxn e2).
  - intros H3. rewrite (IH _ _ H3). exact H2.
  - now intros [= _ <-].
Qed.

(** The baseline handler leaves the lock as it found it when it returns. *)
Lemma MapResizedHandler_puts_lock_back (size delay : Z) (b : Bag) (e : error)
    (s0 s1 : EnvState) (x : Bag * error) :
  exec (HandleTxnErr (MapResizedHandler size delay) b e) s0 = Returns x s1 ->
  txnlock s1 = txnlock s0.
Proof.
  destruct e; cbn [HandleTxnErr MapResizedHandler];
    try (cbn; now intros [= _ <-]).
  rewrite exec_bind.
  destruct (txnlock s0) as [[ | ] [ | n]] eqn:Hl.
  all: try (destruct s0 as [w nl l]; cbn in Hl; subst l; cbn; discriminate).
  destruct (setMapSize_resizes_once size delay s0 Hl) as [-> _].
  cbn. intros [= _ <-]. exact Hl.
Qed.

(** An attempt that gets the lock runs the engine body between the lock
    call and the unlock call of its mode and returns the engine's result. *)
Lemma run_closure_admitted (k : txn_method) (op : TxnOp) (readonly : bool)
    (s : EnvState) (l : RWMutex) :
  acquire (admission_mode (noLock s) readonly) (txnlock s) = Some l ->
  exec (run readonly (closure k op)) s =
    Returns (fst (engine_run k op (lmdbEnv s)))
            (with_lmdbEnv s (snd (engine_run k op (lmdbEnv s)))) /\
  calls (run readonly (closure k op)) s =
    [noLock_get; lock_of (admission_mode (noLock s) readonly);
     engine_body k op; unlock_of (admission_mode (noLock s) readonly)].
Proof.
  intros Ha.
  destruct (run_with_lock readonly (closure k op) s) as [-> ->].
  pose proof (release_acquire _ _ _ Ha) as Hr.
  assert (Hb : forall s0,
            exec (closure k op) s0 =
              Returns (fst (engine_run k op (lmdbEnv s0)))
                      (with_lmdbEnv s0 (snd (engine_run k op (lmdbEnv s0)))) /\
            calls (closure k op) s0 = [engine_body k op])
    by (intros s0; destruct k; split; reflexivity).
  unfold with_lock.
  destruct (admission_mode (noLock s) readonly);
    cbn [exec calls perform lock_of unlock_of]; unfold lock_call; rewrite Ha;
    rewrite exec_bind, calls_bind, (proj1 (Hb _)), (proj2 (Hb _));
    cbn; unfold unlock_call; cbn [txnlock with_lmdbEnv with_txnlock];
    rewrite Hr; destruct s; now split.
Qed.

(** X6: on a wrapper without handlers an operation whose attempt gets the
    lock makes that one attempt and returns what the engine returned, unless
    the engine returned [RetryTxn] itself: the wrapper adds the read of the
    flag, the lock call and the unlock call around the engine call, and
    nothing else. *)
Theorem operation_without_handlers (k : txn_method) (fuel : nat) (r : Env TxnOp)
    (op : TxnOp) (s : EnvState) (l : RWMutex) :
  Handlers r = [] ->
  acquire (admission_mode (noLock s) (declared_readonly k)) (txnlock s) = Some l ->
  fst (engine_run k op (lmdbEnv s)) <> RetryTxn ->
  exec (invoke k (S fuel) r op) s =
    Returns (fst (engine_run k op (lmdbEnv s)))
            (with_lmdbEnv s (snd (engine_run k op (lmdbEnv s)))) /\
  calls (invoke k (S fuel) r op) s =
    [noLock_get; lock_of (admission_mode (noLock s) (declared_readonly k));
     engine_body k op;
     unlock_of (admission_mode (noLock s) (declared_readonly k))].
Proof.
  intros Hh Ha Hne. rewrite invoke_loop, Hh. cbn [runHandler_loop].
  destruct (run_closure_admitted k op _ s l Ha) as [He Hc].
  rewrite exec_bind, calls_bind, He, Hc. cbn.
  rewrite (is_RetryTxn_false _ Hne). now split.
Qed.

(** X7: the loop of [runHandler] has no bound of its own: when, from every
    state in [P], an attempt ends with the chain answering [RetryTxn] in a
    state in [P] again, the operation started in [P] returns on no
    budget. *)
Theorem operation_retries_without_bound (k : txn_method) (r : Env TxnOp)
    (op : TxnOp) (P : EnvState -> Prop) :
  (forall b s, P s ->
     exists b' s',
       exec (attempt (declared_readonly k) (closure k op)
               (chainHandler (Handlers r)) b) s = Returns (b', RetryTxn) s' /\
       P s') ->
  forall fuel s, P s -> exec (invoke k fuel r op) s = Timeout.
Proof.
  intros Hretry fuel s Hs. rewrite invoke_loop.
  generalize (bagWithEnv (bag r) (Some (self r))) as b. revert s Hs.
  induction fuel as [ | fuel IH]; intros s Hs b; [reflexivity | ].
  rewrite exec_loop_step.
  destruct (Hretry b s Hs) as (b' & s' & -> & Hs'). cbn. now apply IH.
Qed.

(** X8: what [NewEnv] builds.  The wrapper has exactly the handlers given,
    in their order, the background bag and a free lock; its engine handle is
    the one given or, for a nil handle, the one [lmdb.NewEnv] returned; its
    [noLock] is the [NoLock] bit of the flags the flags query returned; and
    the flags query returned no error or [EINVAL].  For a nil handle an
    error of [lmdb.NewEnv] is returned as it is. *)
Theorem NewEnv_builds (a : nat) (env : option W) (hs : list (Handler TxnOp)) :
  (forall r s, NewEnv a env hs = Built r s ->
     r = mkEnv a hs Background /\
     txnlock s = unlocked /\
     (env = Some (lmdbEnv s) \/ (env = None /\ lmdb_NewEnv = inl (lmdbEnv s))) /\
     noLock s = has_flag (fst (lmdb_Flags (lmdbEnv s))) NoLock /\
     (snd (lmdb_Flags (lmdbEnv s)) = nilErr \/
      IsErrnoSys (snd (lmdb_Flags (lmdbEnv s))) EINVAL = true)) /\
  (forall err, env = None -> lmdb_NewEnv = inr err -> err <> nilErr ->
     NewEnv a env hs = Failed err).
Proof.
  split.
  - assert (Hnil : forall err, negb (is_nil err) = false -> err = nilErr)
      by (intros [ | | | | | ]; cbn; congruence).
    intros r s. unfold NewEnv.
    destruct env as [e0 | ]; [ | destruct lmdb_NewEnv as [e0 | err] eqn:Hn];
      [ | | destruct (is_nil err); discriminate ];
      cbn; destruct (IsErrnoSys (snd (lmdb_Flags e0)) EINVAL) eqn:H1;
      [ | destruct (negb (is_nil (snd (lmdb_Flags e0)))) eqn:H2;
          [discriminate | ] | | destruct (negb (is_nil (snd (lmdb_Flags e0)))) eqn:H2;
          [discriminate | ] ];
      intros [= <- <-]; cbn; rewrite ?H1; auto 10.
  - intros err -> Hn Hne. unfold NewEnv. rewrite Hn.
    now rewrite (is_nil_false _ Hne).
Qed.

End Calls.

(** * How calls can interleave *)

Section Overtaking.
Context {W TxnOp : Type} {E : Engine W TxnOp}.

#[local] Abbreviation Prog := (Prog TxnOp).
#[local] Abbreviation EnvState := (EnvState W).

Lemma step_first (p p' q : Prog error) (s s' : EnvState) :
  advance p s = Some (p', s') -> step ([p; q], s) ([p'; q], s').
Proof. intros H. exact (step_goroutine [p; q] s 0 p p' s' eq_refl H). Qed.

Lemma step_second (p q q' : Prog error) (s s' : EnvState) :
  advance q s = Some (q', s') -> step ([p; q], s) ([p; q'], s').
Proof. intros H. exact (step_goroutine [p; q] s 1 q q' s' eq_refl H). Qed.

(** The first step of an attempt reads [noLock]; from then on the attempt
    is bound to the mode that value gives. *)
Lemma advance_run_reads_flag (readonly : bool) (fn : Prog error)
    (K : error -> Prog error) (s : EnvState) :
  advance (bind (run readonly fn) K) s =
  Some (bind (with_lock (admission_mode (noLock s) readonly) fn) K, s).
Proof. unfold run; cbn. now destruct (noLock s), readonly. Qed.

Lemma advance_with_lock_enters (m : mode) (k : txn_method) (op : TxnOp)
    (K : error -> Prog error) (s : EnvState) (l : RWMutex) :
  acquire m (txnlock s) = Some l ->
  exists p,
    advance (bind (with_lock m (closure k op)) K) s =
      Some (p, with_txnlock s l) /\
    inside m (engine_body k op) p.
Proof.
  intros Ha. unfold with_lock.
  destruct m; cbn; unfold lock_call; rewrite Ha;
    (eexists; split; [reflexivity | ]);
    (split; [now destruct k | destruct k; eexists; reflexivity]).
Qed.

Lemma invoke_starts_with_run (k : txn_method) (fuel : nat) (r : Env TxnOp)
    (op : TxnOp) :
  exists K, invoke k (S fuel) r op =
            bind (run (declared_readonly k) (closure k op)) K.
Proof. rewrite invoke_loop. cbn [runHandler_loop]. eauto. Qed.

(** X9: attempts that the admission rule sends to the shared lock do not
    wait for one another: from a wrapper with the lock free, two operations
    whose mode is shared (any two in locking-enabled mode, two reads in
    lock-disabled mode) can both be between [RLock] and [RUnlock], each
    about to execute its engine body. *)
Theorem shared_attempts_overlap (k1 k2 : txn_method) (f1 f2 : nat)
    (r : Env TxnOp) (op1 op2 : TxnOp) (s : EnvState) :
  txnlock s = unlocked ->
  admission_mode (noLock s) (declared_readonly k1) = Shared ->
  admission_mode (noLock s) (declared_readonly k2) = Shared ->
  exists p1 p2 s',
    steps ([invoke k1 (S f1) r op1; invoke k2 (S f2) r op2], s) ([p1; p2], s') /\
    inside Shared (engine_body k1 op1) p1 /\
    inside Shared (engine_body k2 op2) p2 /\
    txnlock s' = mkRWMutex false 2.
Proof.
  intros Hl H1 H2.
  destruct (invoke_starts_with_run k1 f1 r op1) as [K1 ->].
  destruct (invoke_starts_with_run k2 f2 r op2) as [K2 ->].
  pose proof (advance_run_reads_flag (declared_readonly k1) (closure k1 op1) K1 s)
    as A1.
  rewrite H1 in A1.
  assert (Hq1 : acquire Shared (txnlock s) = Some (mkRWMutex false 1))
    by (rewrite Hl; reflexivity).
  destruct (advance_with_lock_enters Shared k1 op1 K1 s _ Hq1) as (p1 & B1 & I1).
  set (s1 := with_txnlock s (mkRWMutex false 1)) in *.
  pose proof (advance_run_reads_flag (declared_readonly k2) (closure k2 op2) K2 s1)
    as A2.
  change (noLock s1) with (noLock s) in A2. rewrite H2 in A2.
  destruct (advance_with_lock_enters Shared k2 op2 K2 s1 (mkRWMutex false 2)
              eq_refl) as (p2 & B2 & I2).
  exists p1, p2, (with_txnlock s1 (mkRWMutex false 2)).
  split; [ | split; [exact I1 | split; [exact I2 | reflexivity]]].
  eapply steps_step; [exact (step_first _ _ _ _ _ A1) | ].
  eapply steps_step; [exact (step_first _ _ _ _ _ B1) | ].
  eapply steps_step; [exact (step_second _ _ _ _ _ A2) | ].
  eapply steps_step; [exact (step_second _ _ _ _ _ B2) | ].
  apply steps_refl.
Qed.

(** X10: the flag proxies do not wait for attempts, and an attempt reads
    [noLock] before it asks for the lock.  So a [SetFlags] that turns
    [NoLock] on can come between the two: an attempt, a write attempt too,
    that read [noLock] as false goes on under the shared lock and is about
    to execute its engine body when [SetFlags] has returned nil and
    [noLock] is true. *)
Theorem SetFlags_overtakes_attempt (k : txn_method) (fuel : nat)
    (r : Env TxnOp) (op : TxnOp) (flags : Z) (s : EnvState) :
  txnlock s = unlocked ->
  noLock s = false ->
  has_flag flags NoLock = true ->
  fst (lmdb_SetFlags flags (lmdbEnv s)) = nilErr ->
  exists p s',
    steps ([invoke k (S fuel) r op; SetFlags flags], s) ([p; Ret nilErr], s') /\
    noLock s' = true /\
    inside Shared (engine_body k op) p.
Proof.
  intros Hl Hn Hb Hok.
  destruct (invoke_starts_with_run k fuel r op) as [K ->].
  pose proof (advance_run_reads_flag (declared_readonly k) (closure k op) K s)
    as A1.
  rewrite Hn in A1. cbn [admission_mode] in A1.
  set (s1 := with_lmdbEnv s (snd (lmdb_SetFlags flags (lmdbEnv s)))).
  assert (A2 : advance (SetFlags flags) s =
               Some (Do (noLock_set true) (fun _ => Ret nilErr), s1)).
  { unfold SetFlags; cbn; unfold engine_call. rewrite Hok, Hb. reflexivity. }
  set (s2 := with_noLock s1 true).
  assert (A3 : advance (Do (noLock_set true) (fun _ => Ret nilErr)) s1 =
               Some (Ret nilErr, s2)) by reflexivity.
  assert (Hq : acquire Shared (txnlock s2) = Some (mkRWMutex false 1))
    by (cbn; rewrite Hl; reflexivity).
  destruct (advance_with_lock_enters Shared k op K s2 _ Hq) as (p & B & I).
  exists p, (with_txnlock s2 (mkRWMutex false 1)).
  split; [ | split; [reflexivity | exact I]].
  eapply steps_step; [exact (step_first _ _ _ _ _ A1) | ].
  eapply steps_step; [exact (step_second _ _ _ _ _ A2) | ].
  eapply steps_step; [exact (step_second _ _ _ _ _ A3) | ].
  eapply steps_step; [exact (step_first _ _ _ _ _ B) | ].
  apply steps_refl.
Qed.

End Overtaking.

(** * More concrete runs *)

Module Checks.
Import Scripted.

#[local] Abbreviation exec := (exec (E := engine)).
#[local] Abbreviation calls := (calls (E := engine)).
#[local] Abbreviation steps := (steps (E := engine)).

(** The handlers of the baseline wrapper are orderly. *)
Lemma baseline_orderly : Forall orderly_handler (Handlers baseline).
Proof. repeat constructor. apply orderly_MapResizedHandler. Qed.

(** A view and an update in locking-enabled mode, both inside their
    sections: both hold the lock shared. *)
Lemma callers_sections_exclude_witness :
  exists p1 p2 s',
    steps ([View 1 baseline (failing nilErr);
            Update 1 baseline (failing nilErr)], idle fresh false)
          ([p1; p2], s') /\
    inside Shared (Env_View (failing nilErr)) p1 /\
    inside Shared (Env_Update (failing nilErr)) p2 /\
    (Shared = Shared /\ Shared = Shared).
Proof.
  assert (Hw : Forall wrapper_call
                 [View 1 baseline (failing nilErr);
                  Update 1 baseline (failing nilErr)]).
  { constructor;
      [exact (wrapper_invoke mView 1 baseline (failing nilErr) baseline_orderly) | ].
    constructor;
      [exact (wrapper_invoke mUpdate 1 baseline (failing nilErr) baseline_orderly) | ].
    constructor. }
  assert (Hs : exists p1 p2 s',
            steps ([View 1 baseline (failing nilErr);
                    Update 1 baseline (failing nilErr)], idle fresh false)
                  ([p1; p2], s') /\
            inside Shared (Env_View (failing nilErr)) p1 /\
            inside Shared (Env_Update (failing nilErr)) p2).
  { do 3 eexists. split.
    - eapply steps_step; [eapply (step_goroutine _ _ 0); reflexivity | ].
      eapply steps_step; [eapply (step_goroutine _ _ 0); reflexivity | ].
      eapply steps_step; [eapply (step_goroutine _ _ 1); reflexivity | ].
      eapply steps_step; [eapply (step_goroutine _ _ 1); reflexivity | ].
      apply steps_refl.
    - split; (split; [reflexivity | eexists; reflexivity]). }
  destruct Hs as (p1 & p2 & s' & Hs & I1 & I2).
  exists p1, p2, s'. split; [exact Hs | split; [exact I1 | split; [exact I2 | ]]].
  exact (callers_sections_exclude (E := engine) _ [p1; p2]
           (idle fresh false) s' 0 1 Shared Shared
           (Env_View (failing nilErr)) (Env_Update (failing nilErr)) p1 p2
           Hw eq_refl Hs (Nat.neq_0_succ 0) eq_refl eq_refl I1 I2).
Defined.

(** A view that has executed its body can make its [RUnlock]. *)
Lemma callers_never_abort_witness :
  perform (E := engine) (TxnOp := TxnOp) txnlock_RUnlock
    (mkEnvState (mkWorld 0 false 0 1 nilErr) false (mkRWMutex false 1))
  <> Throws.
Proof.
  eapply (callers_never_abort (E := engine)
            [View 1 baseline (failing nilErr)] _ (idle fresh false) _ 0
            txnlock_RUnlock).
  - constructor; [exact (wrapper_invoke mView 1 baseline (failing nilErr) baseline_orderly) | constructor].
  - reflexivity.
  - eapply steps_step; [eapply (step_goroutine _ _ 0); reflexivity | ].
    eapply steps_step; [eapply (step_goroutine _ _ 0); reflexivity | ].
    eapply steps_step; [eapply (step_goroutine _ _ 0); reflexivity | ].
    apply steps_refl.
  - reflexivity.
Defined.

(** A delayed resize that has taken the lock and a view that has read the
    flag: the view is parked in [RLock], and the resizer can step. *)
Lemma callers_never_deadlock_witness :
  exists ps' s' k,
    steps ([bind (setMapSize 4096 5) Ret; View 1 baseline (failing nilErr)],
           idle fresh false) (ps', s') /\
    nth_error ps' 1 = Some (Do txnlock_RLock k) /\
    advance (E := engine) (Do txnlock_RLock k) s' = None /\
    exists j p p1 s1,
      nth_error ps' j = Some p /\ advance (E := engine) p s' = Some (p1, s1).
Proof.
  assert (Hw : Forall wrapper_call
                 [bind (setMapSize 4096 5) Ret;
                  View 1 baseline (failing nilErr)]).
  { constructor.
    - apply wrapper_then; [apply wrapper_setMapSize | apply wrapper_done].
    - constructor; [ | constructor].
      exact (wrapper_invoke mView 1 baseline (failing nilErr) baseline_orderly). }
  assert (Hs : exists ps' s' k,
            steps ([bind (setMapSize 4096 5) Ret;
                    View 1 baseline (failing nilErr)], idle fresh false)
                  (ps', s') /\
            nth_error ps' 1 = Some (Do txnlock_RLock k) /\
            advance (E := engine) (Do txnlock_RLock k) s' = None).
  { do 3 eexists. split.
    - eapply steps_step; [eapply (step_goroutine _ _ 0); reflexivity | ].
      eapply steps_step; [eapply (step_goroutine _ _ 1); reflexivity | ].
      apply steps_refl.
    - split; reflexivity. }
  destruct Hs as (ps' & s' & k & Hs & H1 & Hp).
  exists ps', s', k. split; [exact Hs | split; [exact H1 | split; [exact Hp | ]]].
  exact (callers_never_deadlock (E := engine) _ ps' (idle fresh false) s' 1
           txnlock_RLock k Hw eq_refl Hs H1).
Defined.

(** [setMapSize] with a delay on an idle wrapper, and on a wrapper with a
    reader inside. *)
Lemma setMapSize_resizes_under_lock_witness :
  calls (setMapSize 4096 5) (idle fresh false) =
    [txnlock_Lock; time_Sleep 5; Env_SetMapSize 4096; txnlock_Unlock] /\
  exec (setMapSize 4096 5) (mkEnvState fresh false (mkRWMutex false 1)) =
    Blocks txnlock_Lock (mkEnvState fresh false (mkRWMutex false 1)).
Proof.
  split.
  - apply (proj1 (setMapSize_resizes_under_lock (E := engine) 4096 5
                    (idle fresh false))); reflexivity.
  - apply (proj2 (setMapSize_resizes_under_lock (E := engine) 4096 5
                    (mkEnvState fresh false (mkRWMutex false 1))));
      discriminate.
Defined.

(** An update that retries once returns with the lock free again. *)
Lemma operation_puts_lock_back_witness :
  txnlock (idle (mkWorld 0 false 0 2 nilErr) false) =
  txnlock (idle fresh false).
Proof.
  apply (operation_puts_lock_back (E := engine) mUpdate 3 baseline
           (resized_until 2) (idle fresh false)
           (idle (mkWorld 0 false 0 2 nilErr) false) nilErr).
  - repeat constructor. intros b e s0 s1 x.
    apply MapResizedHandler_puts_lock_back.
  - reflexivity.
Defined.

(** An update on a wrapper without handlers whose body fails with
    [MapFull]. *)
Lemma operation_without_handlers_witness :
  exec (invoke mUpdate 1 (mkEnv 1 [] Background) (failing MapFull))
       (idle fresh true) =
    Returns MapFull (idle (mkWorld 0 false 0 1 nilErr) true) /\
  calls (invoke mUpdate 1 (mkEnv 1 [] Background) (failing MapFull))
        (idle fresh true) =
    [noLock_get; txnlock_Lock; Env_Update (failing MapFull); txnlock_Unlock].
Proof.
  apply (operation_without_handlers (E := engine) mUpdate 0
           (mkEnv 1 [] Background) (failing MapFull) (idle fresh true)
           (mkRWMutex true 0)).
  - reflexivity.
  - reflexivity.
  - discriminate.
Defined.

(** A body that returns [RetryTxn] itself, on a wrapper without handlers:
    the update returns on no budget. *)
Lemma operation_retries_without_bound_witness :
  exec (invoke mUpdate 1000 (mkEnv 1 [] Background) (failing RetryTxn))
       (idle fresh false) = Timeout.
Proof.
  apply (operation_retries_without_bound (E := engine) mUpdate
           (mkEnv 1 [] Background) (failing RetryTxn)
           (fun s => txnlock s = unlocked)).
  - intros b [w nl l]; cbn; intros ->.
    destruct nl; eexists; eexists; split; reflexivity.
  - reflexivity.
Defined.

(** [NewEnv] on a nil handle, with an engine that allocates and with one
    that cannot. *)
Lemma NewEnv_builds_witness :
  (mkEnv 1 [MapResizedHandler 0 0] Background = baseline /\
   txnlock (idle fresh false) = unlocked) /\
  NewEnv (E := Exhausted.engine) 1 None [] = Failed (ErrnoSys 12).
Proof.
  split.
  - destruct (proj1 (NewEnv_builds (E := engine) 1 None [MapResizedHandler 0 0])
                baseline (idle fresh false) eq_refl) as (H1 & H2 & _).
    split; [symmetry; exact H1 | exact H2].
  - apply (proj2 (NewEnv_builds (E := Exhausted.engine) 1 None [])
             (ErrnoSys 12)); [reflexivity | reflexivity | discriminate].
Defined.

(** A view and an update in locking-enabled mode can be inside together. *)
Lemma shared_attempts_overlap_witness :
  exists p1 p2 s',
    steps ([invoke mView 1 baseline (failing nilErr);
            invoke mUpdate 1 baseline (failing nilErr)], idle fresh false)
          ([p1; p2], s') /\
    inside Shared (Env_View (failing nilErr)) p1 /\
    inside Shared (Env_Update (failing nilErr)) p2 /\
    txnlock s' = mkRWMutex false 2.
Proof.
  apply (shared_attempts_overlap (E := engine) mView mUpdate 0 0 baseline
           (failing nilErr) (failing nilErr) (idle fresh false));
    reflexivity.
Defined.

(** An update and a [SetFlags] that turns [NoLock] on. *)
Lemma SetFlags_overtakes_attempt_witness :
  exists p s',
    steps ([invoke mUpdate 1 baseline (failing nilErr); SetFlags NoLock],
           idle fresh false) ([p; Ret nilErr], s') /\
    noLock s' = true /\
    inside Shared (Env_Update (failing nilErr)) p.
Proof.
  apply (SetFlags_overtakes_attempt (E := engine) mUpdate 0 baseline
           (failing nilErr) NoLock (idle fresh false));
    reflexivity.
Defined.

(** A delayed resize that has taken the lock, beside a view that has read
    the flag: the view's [RLock] parks. *)
Lemma setMapSize_holds_everyone_off_witness :
  perform (E := engine) (TxnOp := TxnOp) txnlock_RLock
    (mkEnvState fresh false (mkRWMutex true 0)) = Parks.
Proof.
  assert (Hw : Forall wrapper_call
                 [bind (setMapSize 4096 5) Ret;
                  View 1 baseline (failing nilErr)]).
  { constructor.
    - apply wrapper_then; [apply wrapper_setMapSize | apply wrapper_done].
    - constructor; [ | constructor].
      exact (wrapper_invoke mView 1 baseline (failing nilErr) baseline_orderly). }
  assert (Hs : exists ps' s' k,
            steps ([bind (setMapSize 4096 5) Ret;
                    View 1 baseline (failing nilErr)], idle fresh false)
                  (ps', s') /\
            nth_error ps' 0 =
              Some (Do (time_Sleep 5) (fun _ =>
                      Do (Env_SetMapSize 4096) (fun err =>
                        Do txnlock_Unlock (fun _ => bind (Ret err) Ret)))) /\
            nth_error ps' 1 = Some (Do txnlock_RLock k) /\
            s' = mkEnvState fresh false (mkRWMutex true 0)).
  { do 3 eexists. split.
    - eapply steps_step; [eapply (step_goroutine _ _ 0); reflexivity | ].
      eapply steps_step; [eapply (step_goroutine _ _ 1); reflexivity | ].
      apply steps_refl.
    - split; [reflexivity | split; reflexivity]. }
  destruct Hs as (ps' & s' & k & Hs & H0 & H1 & ->).
  destruct (setMapSize_holds_everyone_off (E := engine) _ ps'
              (idle fresh false) _ 0 4096 5 _ Hw eq_refl Hs H0
              (before_sleep 4096 5 (fun err => bind (Ret err) Ret) eq_refl))
    as [_ Hp].
  exact (Hp 1%nat Shared k H1).
Defined.

End Checks.

(** * Runners and the chain of the wrapper *)

Section RunnersInMemory.
Context {W TxnOp : Type} {E : Engine W TxnOp}.

#[local] Abbreviation store := (Heap.store (TxnOp := TxnOp)).

(** Allocating one more array changes what no live header reads as. *)
Lemma elems_alloc (m : store) (a : list (Handler TxnOp)) (c : Heap.slice) :
  Heap.live m c ->
  Heap.elems (m ++ [a]) c = Heap.elems m c /\ Heap.live (m ++ [a]) c.
Proof.
  unfold Heap.live, Heap.elems. intros H. split.
  - now rewrite app_nth1.
  - rewrite length_app; cbn; lia.
Qed.

(** The header [Append] returns reads as the receiver followed by [h]. *)
Lemma elems_Append (m : store) (c : Heap.slice) (h : Handler TxnOp) :
  Heap.elems (snd (Heap.Append m c h)) (fst (Heap.Append m c h)) =
    Heap.elems m c ++ [h] /\
  Heap.live (snd (Heap.Append m c h)) (fst (Heap.Append m c h)).
Proof.
  unfold Heap.Append, Heap.live; cbn [fst snd]. split.
  - unfold Heap.elems at 1; cbn [Heap.arr Heap.len].
    rewrite app_nth2, Nat.sub_diag by lia. cbn [nth].
    apply firstn_all2. rewrite length_app; cbn.
    pose proof (firstn_le_length (Heap.len c) (nth (Heap.arr c) m [])) as Hl.
    unfold Heap.elems. lia.
  - cbn [Heap.arr]. rewrite length_app; cbn; lia.
Qed.

(** Deriving a runner changes neither what the wrapper reads as nor what
    any runner derived before reads as. *)
Lemma WithHandler_frame (m : store) (w : Heap.EnvMem) (h : Handler TxnOp)
    (c : Heap.slice) :
  Heap.live m c ->
  Heap.elems (snd (Heap.WithHandler m w h)) c = Heap.elems m c /\
  Heap.live (snd (Heap.WithHandler m w h)) c.
Proof. intros H. exact (elems_alloc m _ c H). Qed.

Lemma Forall2_nth_error_both {A B : Type} (R : A -> B -> Prop)
    (xs : list A) (ys : list B) :
  Forall2 R xs ys ->
  forall i,
  match nth_error xs i, nth_error ys i with
  | Some x, Some y => R x y
  | None, None => True
  | _, _ => False
  end.
Proof.
  induction 1 as [ | x y xs ys Hxy _ IH]; intros [ | i]; cbn; trivial.
  apply IH.
Qed.

(** On memory a session goes as it goes with chains as values, whatever
    runners have been derived, as long as the wrapper's header and the
    runners' headers are live and read as the values say. *)
Lemma play_refines (w : Heap.EnvMem) (acts : list Heap.action) :
  forall (m : store) (made : list Heap.runnerMem)
         (made_v : list (handlerRunner TxnOp)) (s : EnvState W),
  Heap.live m (Heap.m_Handlers w) ->
  Forall2 (fun tr tv => Heap.m_env tr = w /\ Heap.live m (Heap.m_h tr) /\
                        Heap.load_runner m tr = tv)
          made made_v ->
  Heap.play w acts m made s = Heap.play_values (Heap.load m w) acts made_v s.
Proof.
  induction acts as [ | [h | i k fuel op | k fuel op] acts IH];
    intros m made made_v s Hw Hm; cbn [Heap.play Heap.play_values];
    trivial.
  - destruct (WithHandler_frame m w h _ Hw) as [Hew Hlw].
    destruct (elems_Append m (Heap.m_Handlers w) h) as [Hea Hla].
    assert (Hload : Heap.load (snd (Heap.WithHandler m w h)) w = Heap.load m w)
      by (unfold Heap.load; now rewrite Hew).
    rewrite <- Hload. apply IH; trivial.
    apply Forall2_app.
    + clear - Hm Hw Hload.
      induction Hm as [ | tr tv made made_v (Hen & Hl & Hv) _ IHm];
        constructor; trivial.
      destruct (WithHandler_frame m w h _ Hl) as [He Hl'].
      repeat split; trivial. subst tv. unfold Heap.load_runner.
      now rewrite Hen, Hload, He.
    + constructor; [ | constructor].
      split; [reflexivity | split; [exact Hla | ]].
      set (tr := fst (Heap.WithHandler m w h)).
      assert (Hea' : Heap.elems (snd (Heap.WithHandler m w h)) (Heap.m_h tr) =
                     Heap.elems m (Heap.m_Handlers w) ++ [h]) by exact Hea.
      unfold Heap.load_runner. change (Heap.m_env tr) with w.
      rewrite Hea'. unfold WithHandler, Append.
      cbn [Handlers Heap.load]. now rewrite Hew.
  - pose proof (Forall2_nth_error_both _ _ _ Hm i) as Hi.
    destruct (nth_error made i) as [tr | ], (nth_error made_v i) as [tv | ];
      try contradiction; trivial.
    destruct Hi as (_ & _ & ->).
    destruct (exec (runner_invoke k fuel tv op) s) as [err s' | | | ]; trivial.
    f_equal. now apply IH.
  - destruct (exec (invoke k fuel (Heap.load m w) op) s) as [err s' | | | ];
      trivial.
    f_equal. now apply IH.
Qed.

Lemma store_after_frame (w : Heap.EnvMem) (acts : list Heap.action) :
  forall (m : store) (c : Heap.slice),
  Heap.live m c ->
  Heap.elems (Heap.store_after w acts m) c = Heap.elems m c /\
  Heap.live (Heap.store_after w acts m) c.
Proof.
  induction acts as [ | [h | i k fuel op | k fuel op] acts IH]; intros m c Hc;
    cbn [Heap.store_after]; auto.
  destruct (WithHandler_frame m w h c Hc) as [He Hl].
  destruct (IH _ c Hl) as [He' Hl']. split; [congruence | exact Hl'].
Qed.

(** C8: with the chains in memory and [Append] copying into a new array:
    [WithHandler] returns a runner on the same wrapper whose chain reads as
    the wrapper's chain followed by [h0], and writes to no array that was
    there, so the wrapper's chain, and the chain of every runner derived
    before, read as they did.  However many runners a goroutine derives and
    uses, the wrapper's chain reads afterwards as it did at the start, and
    every call, on a runner or on the wrapper itself, ends as it does when
    the wrapper's chain is the fixed value it had at the start and each
    runner's chain that value followed by its handler. *)
Theorem runners_leave_the_wrapper_chain (m : store) (w : Heap.EnvMem)
    (h0 : Handler TxnOp) (acts : list Heap.action) (s : EnvState W) :
  Heap.live m (Heap.m_Handlers w) ->
  let tr := fst (Heap.WithHandler m w h0) in
  let m' := snd (Heap.WithHandler m w h0) in
  Heap.m_env tr = w /\
  Heap.elems m' (Heap.m_h tr) = Handlers (Heap.load m w) ++ [h0] /\
  Heap.load m' w = Heap.load m w /\
  (forall c, Heap.live m c ->
     Heap.elems m' c = Heap.elems m c /\ Heap.live m' c) /\
  Heap.load (Heap.store_after w acts m) w = Heap.load m w /\
  Heap.play w acts m [] s = Heap.play_values (Heap.load m w) acts [] s.
Proof.
  intros Hw tr m'; subst tr m'.
  split; [reflexivity | ].
  split; [exact (proj1 (elems_Append m (Heap.m_Handlers w) h0)) | ].
  split.
  { unfold Heap.load. now rewrite (proj1 (WithHandler_frame m w h0 _ Hw)). }
  split; [intros c Hc; exact (WithHandler_frame m w h0 c Hc) | ].
  split.
  { unfold Heap.load. now rewrite (proj1 (store_after_frame w acts m _ Hw)). }
  apply play_refines; [exact Hw | constructor].
Qed.

End RunnersInMemory.

(** * A session on memory *)

Module Sessions.
Import Scripted Rehearsal.

(** The update through the first runner returns nil, the handler having
    forgiven [MapFull]; the update through the wrapper, made after two
    runners were derived and one was used, returns [MapFull], as the
    wrapper's chain of the start has it; and the wrapper's chain reads as
    it did. *)
Lemma runners_leave_the_wrapper_chain_witness :
  Heap.play (E := engine) wrapper session memory [] (idle fresh false) =
    [Returns nilErr (idle (mkWorld 0 false 0 1 nilErr) false);
     Returns MapFull (idle (mkWorld 0 false 0 2 nilErr) false)] /\
  Heap.load (Heap.store_after wrapper session memory) wrapper =
    mkEnv 1 [MapResizedHandler 0 0] Background.
Proof.
  assert (Hl : Heap.live memory (Heap.m_Handlers wrapper))
    by (unfold Heap.live; cbn; lia).
  pose proof (runners_leave_the_wrapper_chain (E := engine) memory wrapper
                forgiving session (idle fresh false) Hl) as H.
  cbv zeta in H. destruct H as (_ & _ & _ & _ & H5 & H6).
  split.
  - rewrite H6. reflexivity.
  - rewrite H5. reflexivity.
Defined.

End Sessions.
